(** * libfn.js: the lazy sequence layer and the coroutine trampoline

    A shallow embedding of [src/libfn.js].  The first part covers the
    sequence helpers ([iterator], [all], [first], [last], [indexOf],
    [arange], [irange], [ifilter], [zip]); the second part, module
    [Async], covers [asyncExec].

    Conventions of the embedding:
    - a function that may raise returns a [result]; the raised object is
      an [exn] carrying the constructor name of the JavaScript error;
    - a generator function becomes a state type and a [next] function on
      it, so that a cursor is pulled one element at a time;
    - a read that may produce the host's [undefined] for a missing
      property returns an [option]. *)

From Stdlib Require Import ZArith Lia.
From stdpp Require Import base option list gmap strings.

Local Open Scope Z_scope.

(** ** Host values *)

(** Numbers are the integer-valued numbers and the not-a-number value.
    The increment [val++] of the range loops, which is where the
    precision of the host's numbers shows, is [js_succ] below. *)
Inductive number :=
| Int (z : Z)
| NaN.

(** The primitive values that the sequence helpers are run on; strings
    are left out. *)
Inductive jsval :=
| VUndefined
| VNull
| VBool (b : bool)
| VNum (n : number).

Definition num (z : Z) : jsval := VNum (Int z).

(** [ToBoolean]. *)
Definition value_truthy (v : jsval) : bool :=
  match v with
  | VUndefined | VNull => false
  | VBool b => b
  | VNum (Int z) => negb (z =? 0)
  | VNum NaN => false
  end.

Definition value_nullish (v : jsval) : bool :=
  match v with
  | VUndefined | VNull => true
  | _ => false
  end.

(** The global [isNaN]: its argument goes through [ToNumber] first, and
    [undefined] converts to not-a-number. *)
Definition isNaN (v : jsval) : bool :=
  match v with
  | VUndefined => true
  | VNum NaN => true
  | _ => false
  end.

(** The [===] operator. *)
Definition strict_eq (a b : jsval) : bool :=
  match a, b with
  | VUndefined, VUndefined => true
  | VNull, VNull => true
  | VBool x, VBool y => Bool.eqb x y
  | VNum (Int x), VNum (Int y) => x =? y
  | _, _ => false
  end.

(** What the helpers need to know of an element type. *)
Class JSValue (A : Type) := {
  truthy : A → bool;
  nullish : A → bool
}.

#[export] Instance jsval_JSValue : JSValue jsval :=
  {| truthy := value_truthy; nullish := value_nullish |}.

(** ** Raised errors *)

(** The error objects raised by the helpers and by the host, by
    constructor; a message is given without the object that the source
    interpolates into it. *)
Inductive exn :=
| TypeError (msg : string)
| RangeError (msg : string).

Inductive result (A : Type) :=
| Ok (a : A)
| Throw (e : exn).
Arguments Ok {A} a.
Arguments Throw {A} e.

#[export] Instance result_ret : MRet result := @Ok.
#[export] Instance result_bind : MBind result := λ A B f r,
  match r with
  | Ok a => f a
  | Throw e => Throw e
  end.

(** ** Optional *)

Module Optional.

(** Modelled from the spec: the [Optional] class is not part of
    [libfn.js].  It is the presence/absence wrapper returned by the
    element-extraction operations: [of_] wraps an element, [ofNull] is
    the empty wrapper, and [ofNullable] is empty exactly when its
    argument is [null] or [undefined]. *)
Inductive t (A : Type) :=
| empty
| present (x : A).
Arguments empty {A}.
Arguments present {A} x.

(** [Optional.of]; [of] is a reserved word here. *)
Definition of_ {A} (x : A) : t A := present x.
Definition ofNull {A} : t A := empty.
Definition ofNullable {A} `{JSValue A} (x : option A) : t A :=
  match x with
  | None => empty
  | Some v => if nullish v then empty else present v
  end.

End Optional.

(** ** Sequence-like objects *)

(** The objects handed to the helpers:
    - [Arr]: an array; it has [Symbol.iterator], [length], [indexOf] and
      the indices below its length;
    - [Gen]: a generator or other cursor, given by the elements it has
      yet to yield; it has [Symbol.iterator] only, and it ends without
      a return value; a generator object is handed to a helper once;
    - [GenReturning]: a generator whose body ends in [return ret], given
      by the elements it has yet to yield and by [ret];
    - [Iterator]: an object with a [Symbol.iterator] method written by
      hand, given by the elements its cursor yields and by what the
      cursor answers after them: its call number [k] of [next()] after
      the last element returns [{value: after k, done: true}], where
      [None] stands for [undefined];
    - [ArrayLike]: an object with a [length] attribute and a table of
      array-index properties, without [Symbol.iterator]; [hole] is what
      reading a missing index produces ([undefined]);
    - [Plain]: an object with none of these. *)
Inductive iterable (A : Type) :=
| Arr (elems : list A)
| Gen (pending : list A)
| GenReturning (pending : list A) (ret : A)
| Iterator (pending : list A) (after : nat → option A)
| ArrayLike (hole : A) (length : Z) (props : gmap nat A)
| Plain.
Arguments Arr {A} elems.
Arguments Gen {A} pending.
Arguments GenReturning {A} pending ret.
Arguments Iterator {A} pending after.
Arguments ArrayLike {A} hole length props.
Arguments Plain {A}.

Definition array_like (length : Z) (props : gmap nat jsval) : iterable jsval :=
  ArrayLike VUndefined length props.

Section Sequences.
Context {A : Type} `{JSValue A}.

(** [Symbol.iterator in iterable] *)
Definition has_symbol_iterator (it : iterable A) : bool :=
  match it with
  | Arr _ | Gen _ | GenReturning _ _ | Iterator _ _ => true
  | _ => false
  end.

(** ['length' in iterable] *)
Definition has_length (it : iterable A) : bool :=
  match it with
  | Arr _ | ArrayLike _ _ _ => true
  | _ => false
  end.

(** [iterable.length], for an object that has it. *)
Definition length_of (it : iterable A) : Z :=
  match it with
  | Arr l => Z.of_nat (length l)
  | ArrayLike _ n _ => n
  | _ => 0
  end.

(** The property of [iterable] at an integer key, [None] when there
    is none: [k in iterable] is [is_Some], and [iterable[k]] is the
    property or [undefined]. *)
Definition index (it : iterable A) (k : Z) : option A :=
  if k <? 0 then None
  else match it with
       | Arr l => l !! Z.to_nat k
       | ArrayLike _ _ props => props !! Z.to_nat k
       | _ => None
       end.

(** The elements a [for ... of] loop runs over, for an object that
    has [Symbol.iterator]; the loop does not look at the value of an
    iteration that is done. *)
Definition elements (it : iterable A) : list A :=
  match it with
  | Arr l => l
  | Gen l => l
  | GenReturning l _ => l
  | Iterator l _ => l
  | _ => []
  end.

(** The value of the iteration returned by call number [k] of [next()]
    after the last element, [None] standing for [undefined]: a
    generator hands over the value it returns at the first of these
    calls, and [undefined] at every later one. *)
Definition done_value (it : iterable A) (k : nat) : option A :=
  match it with
  | GenReturning _ ret => if k is O then Some ret else None
  | Iterator _ after => after k
  | _ => None
  end.

(** [function* () { for (let i = 0; i < iterable.length; i++) yield iterable[i]; }] *)
Definition index_walk (it : iterable A) : list A :=
  match it with
  | ArrayLike hole n props =>
      (λ i, default hole (props !! i)) <$> seq 0 (Z.to_nat n)
  | _ => []
  end.

Definition iterator (it : iterable A) : result (iterable A) :=
  if has_symbol_iterator it then Ok it
  else if has_length it then Ok (Gen (index_walk it))
  else Throw (TypeError "is not iterable").

(** The loops of [all]: leave with [false] at the first element that
    fails the test. *)
Fixpoint all_loop (test : A → bool) (xs : list A) : bool :=
  match xs with
  | [] => true
  | i :: xs => if negb (test i) then false else all_loop test xs
  end.

Definition all (it : iterable A) (fn : option (A → bool)) : result bool :=
  match fn with
  | Some f => it' ← iterator it; Ok (all_loop f (elements it'))
  | None => it' ← iterator it; Ok (all_loop truthy (elements it'))
  end.

Definition first (it : iterable A) : result (Optional.t A) :=
  if has_symbol_iterator it then
    match elements it with
    | x :: _ => Ok (Optional.of_ x)
    | [] => Ok Optional.ofNull
    end
  else
    match index it 0 with
    | Some x => Ok (Optional.of_ x)
    | None => Throw (TypeError "Object is not iterable")
    end.

Definition last (it : iterable A) : result (Optional.t A) :=
  if has_length it then
    Ok (Optional.ofNullable (index it (length_of it - 1)))
  else if has_symbol_iterator it then
    Ok (Optional.ofNullable (list.last (elements it)))
  else Throw (TypeError "Object is not iterable").

End Sequences.

(** ** Cursors *)

(** The object returned by a cursor's [next()]: [{value: x, done: false}],
    [{value: undefined, done: true}], or [{value: ret, done: true}] at
    the call during which a generator returns [ret]. *)
Inductive iteration (A : Type) :=
| Yielded (x : A)
| Finished
| FinishedWith (ret : A).
Arguments Yielded {A} x.
Arguments Finished {A}.
Arguments FinishedWith {A} ret.

Definition done {A} (i : iteration A) : bool :=
  match i with
  | Yielded _ => false
  | Finished | FinishedWith _ => true
  end.

Definition value {A} (i : iteration A) : option A :=
  match i with
  | Yielded x => Some x
  | Finished => None
  | FinishedWith ret => Some ret
  end.

(** An iteration object is an object: truthy, and neither [null] nor
    [undefined]. *)
#[export] Instance iteration_JSValue {A} : JSValue (iteration A) :=
  {| truthy := λ _, true; nullish := λ _, false |}.

Section Pull.
Context {S A : Type} (next : S → result (iteration A * S)).

(** Call [next()] up to [n] times, one element at a time: the elements
    obtained, and whether the cursor has reported exhaustion.  The
    value of the iteration that reports exhaustion is not looked at. *)
Fixpoint pull (n : nat) (s : S) : result (list A * bool) :=
  match n with
  | O => Ok ([], false)
  | Datatypes.S n' =>
      '(i, s') ← next s;
      match i with
      | Finished | FinishedWith _ => Ok ([], true)
      | Yielded x => '(xs, fin) ← pull n' s'; Ok (x :: xs, fin)
      end
  end.
End Pull.

(** A cursor over an array, or a generator handed over as it is: the
    elements still to come, and the values of the iterations it
    returns after them, one per call of [next()]. *)
Definition cursor (A : Type) : Type := list A * (nat → option A).

Definition cursor_next {A} (c : cursor A) : iteration A * cursor A :=
  match c with
  | (x :: c', after) => (Yielded x, (c', after))
  | ([], after) =>
      (match after O with
       | Some ret => FinishedWith ret
       | None => Finished
       end, ([], after ∘ Datatypes.S))
  end.

(** ** Functions passed by the caller *)

(** A function receives the list of its arguments; a parameter with no
    argument reads [undefined]. *)
Definition jsfun := list jsval → jsval.

Definition arg (k : nat) (args : list jsval) : jsval :=
  default VUndefined (args !! k).

(** ** indexOf *)

(** The loop shared by three branches of [indexOf]: [i] counts the
    elements passed, and [false] is returned after the last one. *)
Fixpoint indexOf_loop (test : jsval → bool) (i : Z) (xs : list jsval) : jsval :=
  match xs with
  | [] => VBool false
  | x :: xs' => if test x then num i else indexOf_loop test (i + 1) xs'
  end.

(** [Array.prototype.indexOf]: the first index holding an element
    strictly equal to [item], or [-1]. *)
Fixpoint native_indexOf (item : jsval) (i : Z) (xs : list jsval) : Z :=
  match xs with
  | [] => -1
  | x :: xs' => if strict_eq x item then i else native_indexOf item (i + 1) xs'
  end.

(** ['indexOf' in iterable] *)
Definition has_indexOf {A} (it : iterable A) : bool :=
  match it with
  | Arr _ => true
  | _ => false
  end.

Definition indexOf (it : iterable jsval) (item : jsval) (fn : option jsfun)
  : result jsval :=
  match fn with
  | Some f =>
      it' ← iterator it;
      Ok (indexOf_loop (λ x, truthy (f [item])) 0 (elements it'))
  | None =>
      if isNaN item then
        it' ← iterator it;
        Ok (indexOf_loop (λ x, isNaN item) 0 (elements it'))
      else if has_indexOf it then
        let index := native_indexOf item 0 (elements it) in
        if index <? 0 then Ok (VBool false) else Ok (num index)
      else
        it' ← iterator it;
        Ok (indexOf_loop (λ x, strict_eq item x) 0 (elements it'))
  end.

(** ** arange and irange *)

(** The arguments the two range helpers tell apart by [typeof]. *)
Inductive jsarg :=
| ANum (n : Z)
| AFun (f : jsfun).

Definition typeof_number (a : option jsarg) : bool :=
  match a with
  | Some (ANum _) => true
  | _ => false
  end.

Definition typeof_function (a : option jsarg) : bool :=
  match a with
  | Some (AFun _) => true
  | _ => false
  end.

(** [args.shift()]: the first argument ([undefined] when there is
    none), and the arguments left. *)
Definition shift (args : list jsarg) : option jsarg * list jsarg :=
  (head args, tail args).

(** [ToNumber] of an argument: a function and [undefined] convert to
    not-a-number. *)
Definition to_number (a : option jsarg) : number :=
  match a with
  | Some (ANum z) => Int z
  | _ => NaN
  end.

Definition as_function (a : option jsarg) : option jsfun :=
  match a with
  | Some (AFun f) => Some f
  | _ => None
  end.

(** The argument processing that opens both [arange] and [irange]:
    [start], [end] and [fn]. *)
Definition process_arguments (args : list jsarg)
  : option jsarg * option jsarg * option jsfun :=
  let '(start, end_, args) :=
    if typeof_number (args !! 1%nat) then
      let '(start, args) := shift args in
      let '(end_, args) := shift args in
      (start, end_, args)
    else
      let '(end_, args) := shift args in
      (Some (ANum 0), end_, args) in
  let fn :=
    if typeof_function (args !! 0%nat) then as_function (fst (shift args))
    else None in
  (start, end_, fn).

(** [a - b], taken exactly.  It is used for the length passed to
    [new Array], which only tells whether the length is an integer in
    [0, 2^32): rounding the difference to a double does not change
    that. *)
Definition number_sub (a b : number) : number :=
  match a, b with
  | Int x, Int y => Int (x - y)
  | _, _ => NaN
  end.

(** [new Array(len)]: [len] empty slots, each reading [undefined]; a
    length that is not an integer in [0, 2^32) raises. *)
Definition new_Array (len : number) : result (list jsval) :=
  match len with
  | Int n =>
      if (0 <=? n) && (n <? 2 ^ 32) then Ok (replicate (Z.to_nat n) VUndefined)
      else Throw (RangeError "Invalid array length")
  | NaN => Throw (RangeError "Invalid array length")
  end.

(** [ret[i] = v]: an index past the end extends the array. *)
Definition array_set (ret : list jsval) (i : Z) (v : jsval) : list jsval :=
  if i <? Z.of_nat (length ret) then <[Z.to_nat i := v]> ret
  else ret ++ replicate (Z.to_nat i - length ret) VUndefined ++ [v].

(** The value stored or yielded at [val], [i]: [val] with no mapping
    function, [fn(val, i)] otherwise. *)
Definition range_elem (fn : option jsfun) (val i : Z) : jsval :=
  match fn with
  | None => num val
  | Some f => f [num val; num i]
  end.

(** The host's numbers are doubles.  A double holds every integer of
    magnitude up to [2^53]; a larger integer is held to 53 significant
    bits.  [round_double x] is the double nearest to the integer [x],
    a tie going to the even significand; this is the result of a sum
    whose exact value is [x], for [x] of magnitude below [2^1024]. *)
Definition round_double (x : Z) : Z :=
  if Z.abs x <=? 2 ^ 53 then x
  else
    let a := Z.abs x in
    let e := Z.log2 a - 52 in
    let q := Z.shiftr a e in
    let r := Z.land a (Z.ones e) in
    let half := 2 ^ (e - 1) in
    let q' := if (half <? r) || ((r =? half) && Z.odd q) then q + 1 else q in
    Z.sgn x * Z.shiftl q' e.

(** [val++]: at [2^53] the value no longer changes. *)
Definition js_succ (val : Z) : Z := round_double (val + 1).

(** [for (let i = 0, val = start; val < end; i++, val++) ret[i] = ...],
    run for [bound] rounds at most: [None] when the loop has not ended
    by then. *)
Fixpoint arange_loop (fn : option jsfun) (end_ : Z) (bound : nat)
    (i val : Z) (ret : list jsval) : option (list jsval) :=
  match bound with
  | O => if val <? end_ then None else Some ret
  | Datatypes.S bound' =>
      if val <? end_ then
        arange_loop fn end_ bound' (js_succ i) (js_succ val)
          (array_set ret i (range_elem fn val i))
      else Some ret
  end.

(** The loop is given [end - start] rounds.  As long as [val++]
    changes [val], a double, it adds [1] at least, so the loop ends
    within them; it has not ended by then only when [val] has stopped
    changing below [end], and then it never ends: [Ok None] stands for
    a call that does not return. *)
Definition arange (args : list jsarg) : result (option (list jsval)) :=
  let '(start, end_, fn) := process_arguments args in
  ret ← new_Array (number_sub (to_number end_) (to_number start));
  match to_number start, to_number end_ with
  | Int s, Int e => Ok (arange_loop fn e (Z.to_nat (e - s)) 0 s ret)
  | _, _ => Ok (Some ret)
  end.

(** The generator [irange]: not yet started, suspended at a [yield]
    with the loop variables [i] and [val], or finished. *)
Inductive irange_state :=
| IRStart (args : list jsarg)
| IRYield (fn : option jsfun) (end_ : Z) (i val : Z)
| IRDone.

(** The loop test and the [yield] that follows it. *)
Definition irange_test (fn : option jsfun) (end_ i val : Z)
  : iteration jsval * irange_state :=
  if val <? end_ then (Yielded (range_elem fn val i), IRYield fn end_ i val)
  else (Finished, IRDone).

Definition irange_next (s : irange_state)
  : result (iteration jsval * irange_state) :=
  match s with
  | IRStart args =>
      let '(start, end_, fn) := process_arguments args in
      match to_number start, to_number end_ with
      | Int s, Int e => Ok (irange_test fn e 0 s)
      | _, _ => Ok (Finished, IRDone)
      end
  | IRYield fn end_ i val => Ok (irange_test fn end_ (js_succ i) (js_succ val))
  | IRDone => Ok (Finished, IRDone)
  end.

Definition irange (args : list jsarg) : irange_state := IRStart args.

(** ** ifilter *)

(** Property lookup on the exported object, for a member called with a
    sequence whose result is looped over.  The helpers look up
    [iterator] this way, and [ifilter] looks up [iterable]; the object
    has a member [iterator] and none called [iterable]. *)
Definition member (name : string)
  : option (iterable jsval → result (iterable jsval)) :=
  if String.eqb name "iterator" then Some iterator else None.

(** [this.name(it)]: calling a missing member raises. *)
Definition call_member (name : string) (it : iterable jsval)
  : result (iterable jsval) :=
  match member name with
  | Some m => m it
  | None => Throw (TypeError ("this." +:+ name +:+ " is not a function"))
  end.

Inductive ifilter_state :=
| IFStart (it : iterable jsval) (filterFn : jsfun)
| IFLoop (filterFn : jsfun) (i : Z) (xs : list jsval)
| IFDone.

(** The loop body, from the element at ordinal [i] on, up to the next
    [yield]. *)
Fixpoint ifilter_loop (filterFn : jsfun) (i : Z) (xs : list jsval)
  : iteration jsval * ifilter_state :=
  match xs with
  | [] => (Finished, IFDone)
  | x :: xs' =>
      if truthy (filterFn [x; num i]) then (Yielded x, IFLoop filterFn (i + 1) xs')
      else ifilter_loop filterFn (i + 1) xs'
  end.

Definition ifilter_next (s : ifilter_state)
  : result (iteration jsval * ifilter_state) :=
  match s with
  | IFStart it filterFn =>
      src ← call_member "iterable" it;
      Ok (ifilter_loop filterFn 0 (elements src))
  | IFLoop filterFn i xs => Ok (ifilter_loop filterFn i xs)
  | IFDone => Ok (Finished, IFDone)
  end.

Definition ifilter (it : iterable jsval) (filterFn : jsfun) : ifilter_state :=
  IFStart it filterFn.

(** ** zip *)

(** The cursor of an object that has [Symbol.iterator]. *)
Definition cursor_of (it : iterable jsval) : cursor jsval :=
  (elements it, done_value it).

(** [iterable[Symbol.iterator]()]: an array gives a new cursor over its
    elements, a generator gives itself; on an object without the member
    the call raises. *)
Definition symbol_iterator (it : iterable jsval) : result (cursor jsval) :=
  if has_symbol_iterator it then Ok (cursor_of it)
  else Throw (TypeError "iterable[Symbol.iterator] is not a function").

Inductive zip_state :=
| ZStart (iterables : list (iterable jsval))
| ZLoop (iterators : list (cursor jsval))
| ZDone.

(** One round of the loop of [zip], from
    [iterations = iterators.map(itr => itr.next())] to the [yield] of
    [iterations.map(iteration => iteration.value)], which reads the
    value of the iterations that are done too. *)
Definition zip_round (iterators : list (cursor jsval))
  : result (iteration (list jsval) * zip_state) :=
  let steps := cursor_next <$> iterators in
  let iterations := fst <$> steps in
  let iterators' := snd <$> steps in
  stop ← all (Arr iterations) (Some done);
  if negb stop then
    Ok (Yielded ((λ i, default VUndefined (value i)) <$> iterations),
        ZLoop iterators')
  else Ok (Finished, ZDone).

Definition zip_next (s : zip_state)
  : result (iteration (list jsval) * zip_state) :=
  match s with
  | ZStart iterables =>
      iterators ← mapM symbol_iterator iterables;
      zip_round iterators
  | ZLoop iterators => zip_round iterators
  | ZDone => Ok (Finished, ZDone)
  end.

Definition zip (iterables : list (iterable jsval)) : zip_state :=
  ZStart iterables.

(** ** Functions used in the examples *)

(** [(a, b) => a === b] *)
Definition strict_equality : jsfun :=
  λ args, VBool (strict_eq (arg 0 args) (arg 1 args)).

(** [x => x > 1] on the integers. *)
Definition greater_than_one : jsfun :=
  λ args, match arg 0 args with
          | VNum (Int z) => VBool (1 <? z)
          | _ => VBool false
          end.

(** ** What the cursors are compared with *)

(** The number of rounds after which every input of [zip] is
    exhausted: the length of the longest one. *)
Definition rounds (inputs : list (cursor jsval)) : nat :=
  max_list ((λ c, length c.1) <$> inputs).

(** The cursor after one call of [next()]. *)
Definition advance (c : cursor jsval) : cursor jsval := (cursor_next c).2.

(** What an input hands over in round [k]: its element at position [k]
    while it has one, and the value of its iteration, [undefined] when
    it carries none, in the rounds after its last element. *)
Definition handed_over (c : cursor jsval) (k : nat) : jsval :=
  match c.1 !! k with
  | Some x => x
  | None => default VUndefined (c.2 (k - length c.1)%nat)
  end.

Definition tuple_at (inputs : list (cursor jsval)) (k : nat) : list jsval :=
  (λ c, handed_over c k) <$> inputs.

Definition zip_rounds (inputs : list (cursor jsval)) : list (list jsval) :=
  tuple_at inputs <$> seq 0 (rounds inputs).

(** The argument lists the range helpers are called with: the optional
    [start], [end], and the optional mapping function. *)
Definition range_call (start : option Z) (end_ : Z) (fn : option jsfun)
  : list jsarg :=
  option_list (ANum <$> start) ++ [ANum end_] ++ option_list (AFun <$> fn).

(** The values [start], [start + 1], ... taken [n] times, each passed
    through the mapping function with its ordinal. *)
Definition range_values (fn : option jsfun) (start : Z) (n : nat) : list jsval :=
  (λ k, range_elem fn (start + Z.of_nat k) (Z.of_nat k)) <$> seq 0 n.

(** ** any, imap, concat and forEach *)

Section MoreSequences.
Context {A : Type} `{JSValue A}.

(** The loops of [any]: leave with [true] at the first element that
    passes the test. *)
Fixpoint any_loop (test : A → bool) (xs : list A) : bool :=
  match xs with
  | [] => false
  | i :: xs => if test i then true else any_loop test xs
  end.

Definition any (it : iterable A) (fn : option (A → bool)) : result bool :=
  match fn with
  | Some f => it' ← iterator it; Ok (any_loop f (elements it'))
  | None => it' ← iterator it; Ok (any_loop truthy (elements it'))
  end.

(** The cursor a [for (... of iterable)] loop takes from [iterable]
    itself, without the adapter: an object without [Symbol.iterator]
    makes the loop raise. *)
Definition for_of (it : iterable A) : result (list A) :=
  if has_symbol_iterator it then Ok (elements it)
  else Throw (TypeError "iterable is not iterable").

(** The generator [imap]: not yet started, suspended at the [yield]
    with the ordinal [i] of the next element and the elements left, or
    finished.  [mapFn] is called with the element, its ordinal and the
    sequence [imap] was given. *)
Inductive imap_state (B : Type) :=
| IMStart (it : iterable A) (mapFn : A → Z → iterable A → B)
| IMLoop (it : iterable A) (mapFn : A → Z → iterable A → B)
    (i : Z) (xs : list A)
| IMDone.
Arguments IMStart {B} it mapFn.
Arguments IMLoop {B} it mapFn i xs.
Arguments IMDone {B}.

Definition imap_loop {B} (it : iterable A) (mapFn : A → Z → iterable A → B)
    (i : Z) (xs : list A) : iteration B * imap_state B :=
  match xs with
  | [] => (Finished, IMDone)
  | x :: xs' => (Yielded (mapFn x i it), IMLoop it mapFn (i + 1) xs')
  end.

Definition imap_next {B} (s : imap_state B)
  : result (iteration B * imap_state B) :=
  match s with
  | IMStart it mapFn =>
      src ← iterator it;
      Ok (imap_loop it mapFn 0 (elements src))
  | IMLoop it mapFn i xs => Ok (imap_loop it mapFn i xs)
  | IMDone => Ok (Finished, IMDone)
  end.

Definition imap {B} (it : iterable A) (mapFn : A → Z → iterable A → B)
  : imap_state B := IMStart it mapFn.

(** The generator [concat]: not yet started, inside the inner loop
    with the elements left of the current sequence and the sequences
    still to come, or finished. *)
Inductive concat_state :=
| CStart (iterables : list (iterable A))
| CInner (items : list A) (iterables : list (iterable A))
| CDone.

(** The outer loop, from its next sequence up to the next [yield]. *)
Fixpoint concat_outer (iterables : list (iterable A))
  : result (iteration A * concat_state) :=
  match iterables with
  | [] => Ok (Finished, CDone)
  | it :: iterables' =>
      items ← for_of it;
      match items with
      | item :: items' => Ok (Yielded item, CInner items' iterables')
      | [] => concat_outer iterables'
      end
  end.

Definition concat_next (s : concat_state)
  : result (iteration A * concat_state) :=
  match s with
  | CStart iterables => concat_outer iterables
  | CInner (item :: items') iterables => Ok (Yielded item, CInner items' iterables)
  | CInner [] iterables => concat_outer iterables
  | CDone => Ok (Finished, CDone)
  end.

Definition concat (iterables : list (iterable A)) : concat_state :=
  CStart iterables.

End MoreSequences.
Arguments IMStart {A B} it mapFn.
Arguments IMLoop {A B} it mapFn i xs.
Arguments IMDone {A B}.

(** [forEach] loops over [this.map(iterable, fn)]; the exported object
    has the members [imap] and [iterator] and none called [map]. *)
Definition forEach (it : iterable jsval) (fn : jsfun) : result unit :=
  _ ← call_member "map" it; Ok ().

(** ** partition *)

(** The [SameValueZero] comparison by which a [Map] and a [Set] tell
    their keys apart: [===], except that not-a-number equals itself. *)
Definition same_value_zero (a b : jsval) : bool :=
  match a, b with
  | VNum NaN, VNum NaN => true
  | _, _ => strict_eq a b
  end.

(** A [Map] from keys to arrays: its entries in insertion order. *)
Fixpoint map_get (m : list (jsval * list jsval)) (key : jsval)
  : option (list jsval) :=
  match m with
  | [] => None
  | (k, v) :: m' => if same_value_zero k key then Some v else map_get m' key
  end.

Definition map_has (m : list (jsval * list jsval)) (key : jsval) : bool :=
  bool_decide (is_Some (map_get m key)).

(** [m.set(key, v)]: the entry of an existing key keeps its place. *)
Fixpoint map_set (m : list (jsval * list jsval)) (key : jsval)
    (v : list jsval) : list (jsval * list jsval) :=
  match m with
  | [] => [(key, v)]
  | (k, w) :: m' =>
      if same_value_zero k key then (k, v) :: m'
      else (k, w) :: map_set m' key v
  end.

(** [m.get(key).push(x)]: the array stored at [key] grows in place. *)
Fixpoint map_push (m : list (jsval * list jsval)) (key : jsval) (x : jsval)
  : list (jsval * list jsval) :=
  match m with
  | [] => []
  | (k, w) :: m' =>
      if same_value_zero k key then (k, w ++ [x]) :: m'
      else (k, w) :: map_push m' key x
  end.

Fixpoint partition_loop (keyFn : jsfun) (ret : list (jsval * list jsval))
    (xs : list jsval) : list (jsval * list jsval) :=
  match xs with
  | [] => ret
  | x :: xs' =>
      let key := keyFn [x] in
      if map_has ret key then partition_loop keyFn (map_push ret key x) xs'
      else partition_loop keyFn (map_set ret key [x]) xs'
  end.

Definition partition (it : iterable jsval) (keyFn : jsfun)
  : result (list (jsval * list jsval)) :=
  xs ← for_of it; Ok (partition_loop keyFn [] xs).

(** ** setsAreEqual *)

(** [Set] objects live in a store, by reference, each with its members
    in insertion order; [set.has(item)] compares by [SameValueZero]. *)
Definition set_has (members : list jsval) (item : jsval) : bool :=
  existsb (same_value_zero item) members.

(** [for (let item of set1) if (!set2.has(item)) return false; return true] *)
Fixpoint has_all (set2 : list jsval) (set1 : list jsval) : bool :=
  match set1 with
  | [] => true
  | item :: rest => if negb (set_has set2 item) then false else has_all set2 rest
  end.

(** [None] when a reference is not one of a [Set] in the store. *)
Definition setsAreEqual (store : gmap nat (list jsval)) (set1 set2 : nat)
  : option bool :=
  members1 ← store !! set1;
  members2 ← store !! set2;
  if bool_decide (set1 = set2) then Some true
  else if bool_decide (length members1 = length members2)
       then Some (has_all members2 members1)
  else Some false.

(** [x => x % 2] on the integers; the remainder has the sign of [x]. *)
Definition parity : jsfun :=
  λ args, match arg 0 args with
          | VNum (Int z) => num (Z.rem z 2)
          | _ => VNum NaN
          end.

(** ** Decidable equality of the primitive values *)

#[export] Instance number_eq_dec : EqDecision number.
Proof. solve_decision. Defined.

#[export] Instance jsval_eq_dec : EqDecision jsval.
Proof. solve_decision. Defined.

(** * asyncExec *)

Module Async.

(** The state of a promise: settled with success, settled with
    failure, or not settled. *)
Inductive settlement (V : Type) :=
| Fulfilled (v : V)
| Rejected (e : V)
| Pending.
Arguments Fulfilled {V} v.
Arguments Rejected {V} e.
Arguments Pending {V}.

#[local] Set Warnings "-register-all".

(** The values a routine exchanges with the trampoline: primitives,
    objects with data properties, error objects and promises.  A
    promise is given with the settlement it reaches. *)
Inductive value :=
| Undefined
| Null
| Bool (b : bool)
| Num (n : number)
| Str (s : string)
| Obj (props : list (string * value))
| Error (name : string) (message : string)
| Promise (p : settlement value).

#[local] Set Warnings "register-all".

(** The result of evaluating an expression or a call: a value, or a
    raised value. *)
Inductive completion (A : Type) :=
| Normal (a : A)
| Abrupt (e : value).
Arguments Normal {A} a.
Arguments Abrupt {A} e.

(** ['then' in v]: the operator raises on a primitive; an object has
    the property when it is a promise or carries it as a data
    property. *)
Definition then_in (v : value) : completion bool :=
  match v with
  | Undefined | Null | Bool _ | Num _ | Str _ =>
      Abrupt (Error "TypeError" "Cannot use 'in' operator to search for 'then'")
  | Obj props => Normal (bool_decide ("then" ∈ props.*1))
  | Error _ _ => Normal false
  | Promise _ => Normal true
  end.

(** [v.then(resumeGenerator, throwGenerator)]: a promise takes the two
    continuations and calls one of them when it settles; any other
    [then] is not callable. *)
Definition call_then (v : value) : completion (settlement value) :=
  match v with
  | Promise p => Normal p
  | _ => Abrupt (Error "TypeError" "iteration.value.then is not a function")
  end.

(** How the trampoline resumes the cursor: [iterator.next(value)] or
    [iterator.throw(error)]. *)
Inductive resumption :=
| ResumeNext (v : value)
| ResumeThrow (e : value).

(** The iteration object a resumed cursor hands back:
    [{value, done: false}] at the next suspension point [s], or
    [{value, done: true}] when the routine has returned. *)
Inductive iteration (S : Type) :=
| Yielded (v : value) (s : S)
| Returned (v : value).
Arguments Yielded {S} v s.
Arguments Returned {S} v.

(** A routine: its suspension points, the point before its first step,
    and what resuming it at a point does, which is to reach the next
    [yield], to return, or to raise. *)
Record routine := {
  point : Type;
  start : point;
  resume : point → resumption → completion (iteration point)
}.

(** The state of one [asyncExec] invocation, after the states of the
    trampoline: created, running (about to resume the cursor at point
    [s]), suspended (the cursor is at point [s] and the continuations
    are registered on the promise [p]), done and failed.  [Done v] and
    [Failed e] record the call, [resolve(v)] or [reject(e)], by which
    the run settles the outer promise; until then the outer promise is
    pending. *)
Inductive run (S : Type) :=
| Created
| Running (s : S) (r : resumption)
| Suspended (s : S) (p : settlement value)
| Done (v : value)
| Failed (e : value).
Arguments Created {S}.
Arguments Running {S} s r.
Arguments Suspended {S} s p.
Arguments Done {S} v.
Arguments Failed {S} e.

(** [resolve(v)], called on the outer promise, which is the host's: a
    promise is followed, and any other value fulfils the outer promise.
    An object with [then] as a data property is not followed, its
    [then] not being callable. *)
Fixpoint resolve (v : value) : settlement value :=
  match v with
  | Promise (Fulfilled w) => resolve w
  | Promise (Rejected e) => Rejected e
  | Promise Pending => Pending
  | _ => Fulfilled v
  end.

(** The settlement of the promise that [asyncExec] returns: that of
    [resolve(v)] or [reject(e)] once the run has made the call, and
    pending before. *)
Definition outer {S} (r : run S) : settlement value :=
  match r with
  | Done v => resolve v
  | Failed e => Rejected e
  | _ => Pending
  end.

Section Trampoline.
Context (R : routine).
#[local] Abbreviation S := (point R).

Definition processIteration (i : iteration S) : completion (run S) :=
  match i with
  | Returned v => Normal (Done v)
  | Yielded v s =>
      match then_in v with
      | Abrupt e => Abrupt e
      | Normal true =>
          match call_then v with
          | Normal p => Normal (Suspended s p)
          | Abrupt e => Abrupt e
          end
      | Normal false => Normal (Running s (ResumeNext v))
      end
  end.

(** [try { processIteration(...) } catch (e) { reject(e) }] *)
Definition try_process (c : completion (iteration S)) : run S :=
  match c with
  | Abrupt e => Failed e
  | Normal i =>
      match processIteration i with
      | Normal r => r
      | Abrupt e => Failed e
      end
  end.

Definition resumeGenerator (s : S) (v : value) : run S :=
  try_process (resume R s (ResumeNext v)).

Definition throwGenerator (s : S) (e : value) : run S :=
  try_process (resume R s (ResumeThrow e)).

(** One move of the run: the pending call to [resumeGenerator] or
    [throwGenerator] is made, or the awaited promise, once settled,
    calls the continuation registered for its settlement. *)
Definition step (r : run S) : run S :=
  match r with
  | Created => Running (start R) (ResumeNext Undefined)
  | Running s (ResumeNext v) => resumeGenerator s v
  | Running s (ResumeThrow e) => throwGenerator s e
  | Suspended s (Fulfilled v) => Running s (ResumeNext v)
  | Suspended s (Rejected e) => Running s (ResumeThrow e)
  | Suspended s Pending => Suspended s Pending
  | Done v => Done v
  | Failed e => Failed e
  end.

Fixpoint steps (n : nat) (r : run S) : run S :=
  match n with
  | O => r
  | Datatypes.S n' => steps n' (step r)
  end.

(** The run of [asyncExec(generator)] after [n] moves. *)
Definition asyncExec (n : nat) : run S := steps n Created.

End Trampoline.

(** ** Routines used in the scenarios *)

Inductive await_point :=
| BeforeFirstStep
| AtYield.

(** [function* () { const v = yield p; return k(v); }] *)
Definition await_then (p : value) (k : value → value) : routine := {|
  point := await_point;
  start := BeforeFirstStep;
  resume s r :=
    match s, r with
    | BeforeFirstStep, ResumeNext _ => Normal (Yielded p AtYield)
    | BeforeFirstStep, ResumeThrow e => Abrupt e
    | AtYield, ResumeNext v => Normal (Returned (k v))
    | AtYield, ResumeThrow e => Abrupt e
    end
|}.

(** [function* () { try { const v = yield p; return k(v); }
                    catch (e) { return fallback; } }] *)
Definition await_catch (p : value) (k : value → value) (fallback : value)
  : routine := {|
  point := await_point;
  start := BeforeFirstStep;
  resume s r :=
    match s, r with
    | BeforeFirstStep, ResumeNext _ => Normal (Yielded p AtYield)
    | BeforeFirstStep, ResumeThrow e => Abrupt e
    | AtYield, ResumeNext v => Normal (Returned (k v))
    | AtYield, ResumeThrow _ => Normal (Returned fallback)
    end
|}.

(** [v => typeof v === 'number' ? v * 2 : NaN] *)
Definition double (v : value) : value :=
  match v with
  | Num (Int z) => Num (Int (z * 2))
  | _ => Num NaN
  end.

(** The routine that awaits a promise fulfilled with [5] and returns
    twice what it is resumed with. *)
Definition doubling : routine :=
  await_then (Promise (Fulfilled (Num (Int 5)))) double.

Definition failure_E : value := Error "Error" "E".

(** The routines that await a promise rejected with [failure_E]: one catches
    the failure and returns a fallback string, the other does not. *)
Definition recovering : routine :=
  await_catch (Promise (Rejected failure_E)) double (Str "Could not load.").

Definition not_recovering : routine :=
  await_then (Promise (Rejected failure_E)) double.

(** [function* () { const v = yield 5; return v; }] *)
Definition yielding_five : routine := await_then (Num (Int 5)) (λ v, v).

(** [function* () { let v;
                    try { v = yield p; } catch (e) { v = yield q; }
                    return k(v); }] *)
Inductive retry_point :=
| BeforeFirstTry
| AtFirstYield
| AtSecondYield.

Definition await_retry (p q : value) (k : value → value) : routine := {|
  point := retry_point;
  start := BeforeFirstTry;
  resume s r :=
    match s, r with
    | BeforeFirstTry, ResumeNext _ => Normal (Yielded p AtFirstYield)
    | BeforeFirstTry, ResumeThrow e => Abrupt e
    | AtFirstYield, ResumeNext v => Normal (Returned (k v))
    | AtFirstYield, ResumeThrow _ => Normal (Yielded q AtSecondYield)
    | AtSecondYield, ResumeNext v => Normal (Returned (k v))
    | AtSecondYield, ResumeThrow e => Abrupt e
    end
|}.

(** [function* () { const v = yield p; throw v; }] *)
Definition await_throw (p : value) : routine := {|
  point := await_point;
  start := BeforeFirstStep;
  resume s r :=
    match s, r with
    | BeforeFirstStep, ResumeNext _ => Normal (Yielded p AtYield)
    | BeforeFirstStep, ResumeThrow e => Abrupt e
    | AtYield, ResumeNext v => Abrupt v
    | AtYield, ResumeThrow e => Abrupt e
    end
|}.

Definition failure_F : value := Error "Error" "F".

(** The routine that awaits a promise fulfilled with [5] and returns
    a promise rejected with [failure_F]; and the routine that catches
    [failure_E] and returns such a promise as its fallback. *)
Definition returning_a_rejection : routine :=
  await_then (Promise (Fulfilled (Num (Int 5))))
    (λ _, Promise (Rejected failure_F)).

Definition recovering_with_a_rejection : routine :=
  await_catch (Promise (Rejected failure_E)) double
    (Promise (Rejected failure_F)).

(** [function* () { const vs = [];
                    for (const p of ps) vs.push(yield p);
                    return k(vs); }] *)
Inductive chain_point :=
| ChainStart
| ChainAt (got : list value) (rest : list value).

Definition chain_from (got : list value) (rest : list value)
    (k : list value → value) : completion (iteration chain_point) :=
  match rest with
  | [] => Normal (Returned (k got))
  | p :: rest' => Normal (Yielded p (ChainAt got rest'))
  end.

Definition await_each (ps : list value) (k : list value → value) : routine := {|
  point := chain_point;
  start := ChainStart;
  resume s r :=
    match s, r with
    | ChainStart, ResumeNext _ => chain_from [] ps k
    | ChainAt got rest, ResumeNext v => chain_from (got ++ [v]) rest k
    | _, ResumeThrow e => Abrupt e
    end
|}.

End Async.

(** * Properties of the sequence helpers *)

(** ** first, iterator and last on an empty array-like *)

(** C10: [first] looks for index [0] and not for the [length]
    attribute: on an array-like with no property at index [0] it raises
    whatever the length, while for such an object of length [0]
    [iterator] gives a cursor with nothing to yield and [last] gives
    the empty [Optional]. *)
Theorem first_rejects_empty_array_like
    {A : Type} `{JSValue A} (hole : A) (props : gmap nat A) :
  props !! 0%nat = None →
  (∀ len, first (ArrayLike hole len props)
          = Throw (TypeError "Object is not iterable"))
  ∧ iterator (ArrayLike hole 0 props) = Ok (Gen [])
  ∧ last (ArrayLike hole 0 props) = Ok Optional.empty.
Proof.
  intros Hno. split; [|split].
  - intros len. unfold first, index. cbn. change (Z.to_nat 0) with 0%nat.
    by rewrite Hno.
  - reflexivity.
  - reflexivity.
Qed.

Lemma first_rejects_empty_array_like_witness :
  first (array_like 0 ∅) = Throw (TypeError "Object is not iterable")
  ∧ iterator (array_like 0 ∅) = Ok (Gen [])
  ∧ last (array_like 0 ∅) = Ok Optional.empty.
Proof.
  destruct (first_rejects_empty_array_like VUndefined (∅ : gmap nat jsval))
    as (Hfirst & Hiter & Hlast); [reflexivity|].
  exact (conj (Hfirst 0) (conj Hiter Hlast)).
Defined.

(** ** Pulling a cursor *)

Lemma pull_S {S A : Type} (next : S → result (iteration A * S)) n s :
  pull next (Datatypes.S n) s
  = next s ≫= λ '(i, s'),
      match i with
      | Finished | FinishedWith _ => Ok ([], true)
      | Yielded x => pull next n s' ≫= λ '(xs, fin), Ok (x :: xs, fin)
      end.
Proof. reflexivity. Qed.

(** ** zip *)

Section ZipFacts.
Implicit Types (inputs : list (cursor jsval)) (c : cursor jsval).
Implicit Types (its : list (iterable jsval)).

Lemma all_loop_done_nil inputs :
  all_loop done ((cursor_next <$> inputs).*1) = true ↔ rounds inputs = 0%nat.
Proof.
  unfold rounds. induction inputs as [|[l after] inputs IH]; [done|].
  destruct l as [|x l]; cbn.
  - destruct (after 0%nat); cbn; rewrite IH; lia.
  - split; [done|lia].
Qed.

Lemma tuple_of_iterations inputs :
  (λ i, default VUndefined (value i)) <$> (cursor_next <$> inputs).*1
  = tuple_at inputs 0.
Proof.
  unfold tuple_at. rewrite <- !list_fmap_compose.
  apply list_fmap_ext. intros _ [[|x l] after] _; [|done].
  unfold handed_over. cbn. by destruct (after 0%nat).
Qed.

Lemma rounds_advance inputs :
  rounds (advance <$> inputs) = pred (rounds inputs).
Proof.
  unfold rounds. induction inputs as [|[l after] inputs IH]; [done|].
  cbn [fmap list_fmap max_list]. rewrite IH.
  destruct l as [|x l]; cbn; lia.
Qed.

(** What a cursor hands over in round [k] after one call is what it
    hands over in round [k + 1] before it. *)
Lemma handed_over_advance c k :
  handed_over (advance c) k = handed_over c (S k).
Proof.
  destruct c as [[|x l] after]; [|done].
  unfold handed_over. cbn. by rewrite Nat.sub_0_r.
Qed.

Lemma tuple_at_advance inputs k :
  tuple_at (advance <$> inputs) k = tuple_at inputs (S k).
Proof.
  unfold tuple_at. rewrite <- list_fmap_compose.
  apply list_fmap_ext. intros _ c _. apply handed_over_advance.
Qed.

Lemma zip_rounds_step inputs n :
  rounds inputs = S n →
  zip_rounds inputs = tuple_at inputs 0 :: zip_rounds (advance <$> inputs).
Proof.
  intros Hn. unfold zip_rounds. rewrite rounds_advance, Hn. cbn. f_equal.
  rewrite <- fmap_S_seq, <- list_fmap_compose.
  apply list_fmap_ext. intros _ k _. cbn. by rewrite tuple_at_advance.
Qed.

(** A round with an element left in some input yields the tuple of
    what the inputs hand over; a round with none ends the cursor. *)
Lemma zip_round_spec inputs :
  zip_round inputs =
    if decide (rounds inputs = 0%nat) then Ok (Finished, ZDone)
    else Ok (Yielded (tuple_at inputs 0), ZLoop (advance <$> inputs)).
Proof.
  unfold zip_round, all. cbn.
  rewrite tuple_of_iterations, <- (list_fmap_compose cursor_next snd).
  destruct (all_loop done _) eqn:Hstop; cbn.
  - apply all_loop_done_nil in Hstop. by rewrite decide_True.
  - rewrite decide_False; [done|].
    intros Hz. apply all_loop_done_nil in Hz. congruence.
Qed.

Lemma pull_zip_loop n inputs :
  rounds inputs = n →
  pull zip_next (S n) (ZLoop inputs) = Ok (zip_rounds inputs, true).
Proof.
  revert inputs. induction n as [|n IH]; intros inputs Hn.
  - cbn -[zip_round]. rewrite zip_round_spec, decide_True by done. cbn.
    unfold zip_rounds. by rewrite Hn.
  - rewrite pull_S. cbn -[zip_round pull].
    rewrite zip_round_spec, decide_False by lia. cbn -[pull].
    rewrite IH by (rewrite rounds_advance; lia). cbn.
    by rewrite (zip_rounds_step inputs n).
Qed.

Lemma symbol_iterators its :
  forallb has_symbol_iterator its = true →
  mapM symbol_iterator its = Ok (cursor_of <$> its).
Proof.
  induction its as [|it its IH]; [done|].
  intros [Hit Hits]%andb_prop.
  change (mapM symbol_iterator (it :: its))
    with (symbol_iterator it ≫= λ c,
          mapM symbol_iterator its ≫= λ cs, Ok (c :: cs)).
  rewrite (IH Hits). unfold symbol_iterator. rewrite Hit. reflexivity.
Qed.
End ZipFacts.

(** C1, as the code has it: [zip] yields in each round the tuple of
    what its inputs hand over in that round, which is the current
    element of an input that has one and, for an input that is
    exhausted, the value of its iteration: [undefined] for an array,
    and for a generator the value it returns in the round in which it
    finishes and [undefined] in every later round.  It ends in the
    first round in which every input reports exhaustion; the rounds
    are as many as the longest input has elements. *)
Theorem zip_runs_to_the_longest_input (its : list (iterable jsval)) :
  forallb has_symbol_iterator its = true →
  pull zip_next (S (rounds (cursor_of <$> its))) (zip its)
  = Ok (zip_rounds (cursor_of <$> its), true)
  ∧ length (zip_rounds (cursor_of <$> its))
    = max_list ((λ it, length (elements it)) <$> its)
  ∧ ∀ k j it, (k < rounds (cursor_of <$> its))%nat →
      its !! j = Some it →
      zip_rounds (cursor_of <$> its) !! k
        ≫= (λ tuple, tuple !! j)
      = Some match elements it !! k with
             | Some x => x
             | None => default VUndefined
                         (done_value it (k - length (elements it)))
             end.
Proof.
  intros Hits. split; [|split].
  - rewrite <- (pull_zip_loop _ (cursor_of <$> its) eq_refl).
    unfold zip. cbn -[zip_round]. by rewrite (symbol_iterators its Hits).
  - unfold zip_rounds, rounds.
    by rewrite length_fmap, length_seq, <- list_fmap_compose.
  - intros k j it Hk Hj. unfold zip_rounds.
    rewrite list_lookup_fmap, lookup_seq_lt by done. cbn.
    unfold tuple_at. by rewrite !list_lookup_fmap, Hj.
Qed.

Lemma zip_runs_to_the_longest_input_witness :
  pull zip_next 4 (zip [Arr [num 1; num 2; num 3]; Arr [num 4; num 5]])
  = Ok ([[num 1; num 4]; [num 2; num 5]; [num 3; VUndefined]], true)
  ∧ pull zip_next 4
      (zip [Arr [num 1; num 2; num 3]; GenReturning [num 4] (num 9)])
    = Ok ([[num 1; num 4]; [num 2; num 9]; [num 3; VUndefined]], true)
  ∧ pull zip_next 3
      (zip [Gen [num 1; num 2]; Iterator [] (λ _, Some (num 7))])
    = Ok ([[num 1; num 7]; [num 2; num 7]], true).
Proof.
  split; [|split].
  - exact (proj1 (zip_runs_to_the_longest_input
                    [Arr [num 1; num 2; num 3]; Arr [num 4; num 5]] eq_refl)).
  - exact (proj1 (zip_runs_to_the_longest_input
                    [Arr [num 1; num 2; num 3]; GenReturning [num 4] (num 9)]
                    eq_refl)).
  - exact (proj1 (zip_runs_to_the_longest_input
                    [Gen [num 1; num 2]; Iterator [] (λ _, Some (num 7))]
                    eq_refl)).
Defined.

(** C1, as the claim states it, at [zip([1,2,3],[4,5])]: the third call
    of [next()] does not report exhaustion, it yields [[3, undefined]]. *)
Lemma zip_does_not_stop_at_the_shortest_input :
  pull zip_next 3 (zip [Arr [num 1; num 2; num 3]; Arr [num 4; num 5]])
  ≠ Ok ([[num 1; num 4]; [num 2; num 5]], true).
Proof. discriminate. Qed.

(** ** indexOf *)

(** A test that does not look at the element stops at the first element
    or never. *)
Lemma indexOf_loop_constant (b : bool) (i : Z) (xs : list jsval) :
  indexOf_loop (λ _, b) i xs
  = if b then match xs with [] => VBool false | _ :: _ => num i end
    else VBool false.
Proof.
  revert i. induction xs as [|x xs IH]; intros i; cbn.
  - by destruct b.
  - destruct b; [done|]. by rewrite IH.
Qed.

(** C4, at the failing input: searching the not-a-number value tests
    the searched item again at each element, not the element, so the
    search stops at position [0] of every sequence that has an element;
    [indexOf([1, NaN, 3], NaN)] is [0], and so is
    [indexOf([1, 2, 3], NaN)]. *)
Theorem indexOf_NaN_returns_position_0 :
  indexOf (Arr [num 1; VNum NaN; num 3]) (VNum NaN) None = Ok (num 0)
  ∧ indexOf (Arr [num 1; num 2; num 3]) (VNum NaN) None = Ok (num 0)
  ∧ ∀ x xs, indexOf (Arr (x :: xs)) (VNum NaN) None = Ok (num 0).
Proof. by repeat split. Qed.

(** C5, at the failing input: the equality function is called with the
    searched item alone, so the result does not depend on the elements:
    it is [0] when the call is truthy and the sequence has an element,
    and [false] otherwise; [indexOf([1, 2, 3], 2, (a, b) => a === b)]
    is [false]. *)
Theorem indexOf_equals_fn_ignores_the_elements :
  indexOf (Arr [num 1; num 2; num 3]) (num 2) (Some strict_equality)
  = Ok (VBool false)
  ∧ ∀ (f : jsfun) (item : jsval) (xs : list jsval),
      indexOf (Arr xs) item (Some f)
      = Ok (if truthy (f [item])
            then match xs with [] => VBool false | _ :: _ => num 0 end
            else VBool false).
Proof.
  split; [done|]. intros f item xs. cbn -[truthy].
  by rewrite indexOf_loop_constant.
Qed.

(** ** ifilter *)

(** C7, at the failing input: the first pull of the cursor of [ifilter]
    looks up the member [iterable], which the object does not have, and
    raises; no element is yielded and the predicate is never called. *)
Theorem ifilter_raises_on_the_first_pull :
  pull ifilter_next 4 (ifilter (Arr [num 1; num 2; num 3]) greater_than_one)
  = Throw (TypeError "this.iterable is not a function")
  ∧ ∀ (it : iterable jsval) (filterFn : jsfun) (n : nat),
      pull ifilter_next (S n) (ifilter it filterFn)
      = Throw (TypeError "this.iterable is not a function").
Proof. by split. Qed.

(** ** arange and irange *)

(** Two maps over [seq 0 n] that agree once the ordinal of one is
    shifted by one. *)
Ltac shift_ordinals :=
  rewrite <- fmap_S_seq, <- list_fmap_compose;
  apply list_fmap_ext; intros _ ? _; cbn; f_equal; lia.

Section RangeFacts.
Implicit Types (fn : option jsfun) (start : option Z).

Lemma process_range_call start e fn :
  process_arguments (range_call start e fn)
  = (Some (ANum (default 0 start)), Some (ANum e), fn).
Proof. by destruct start, fn. Qed.

(** Up to [2^53] the increment is exact. *)
Lemma js_succ_exact val : - 2 ^ 53 ≤ val + 1 ≤ 2 ^ 53 → js_succ val = val + 1.
Proof.
  intros Hsafe. unfold js_succ, round_double.
  by rewrite (proj2 (Z.leb_le _ _)) by lia.
Qed.

(** At [2^53] the increment leaves the value as it is. *)
Lemma js_succ_stuck : js_succ (2 ^ 53) = 2 ^ 53.
Proof. reflexivity. Qed.

Lemma range_values_S fn s n :
  range_values fn s (S n)
  = range_elem fn s 0 :: ((λ k, range_elem fn (s + 1 + Z.of_nat k)
                                  (0 + 1 + Z.of_nat k)) <$> seq 0 n).
Proof.
  unfold range_values. cbn. rewrite Z.add_0_r. f_equal.
  shift_ordinals.
Qed.

(** The loop of [arange] fills the slots left of the array, one per
    value up to [end], as long as the values stay within [2^53]. *)
Lemma arange_loop_fills fn e bound i val (filled : list jsval) :
  val + Z.of_nat bound = e →
  i = Z.of_nat (length filled) →
  - 2 ^ 53 ≤ val →
  e ≤ 2 ^ 53 →
  i + Z.of_nat bound ≤ 2 ^ 53 →
  arange_loop fn e bound i val (filled ++ replicate bound VUndefined)
  = Some (filled ++ ((λ k, range_elem fn (val + Z.of_nat k) (i + Z.of_nat k))
                       <$> seq 0 bound)).
Proof.
  revert i val filled.
  induction bound as [|bound IH]; intros i val filled Hend Hi Hlo Hhi Hcount.
  - cbn. by rewrite (proj2 (Z.ltb_ge _ _)) by lia.
  - cbn [arange_loop]. rewrite (proj2 (Z.ltb_lt val e)) by lia.
    assert (array_set (filled ++ replicate (S bound) VUndefined) i
              (range_elem fn val i)
            = (filled ++ [range_elem fn val i]) ++ replicate bound VUndefined)
      as ->.
    { unfold array_set. rewrite length_app, length_replicate.
      rewrite (proj2 (Z.ltb_lt _ _)) by lia.
      rewrite Hi, Nat2Z.id, <- (Nat.add_0_r (length filled)).
      rewrite insert_app_r. cbn. by rewrite <- app_assoc. }
    rewrite !js_succ_exact by lia.
    rewrite IH; [|lia|rewrite length_app; cbn; lia|lia..].
    rewrite <- app_assoc. cbn. rewrite !Z.add_0_r. do 3 f_equal.
    shift_ordinals.
Qed.

(** The cursor of [irange], suspended at a [yield], has the values up
    to [end] left to yield, as long as the values stay within
    [2^53]. *)
Lemma pull_irange_yield fn e n i val :
  val + 1 + Z.of_nat n = e →
  - 2 ^ 53 ≤ val →
  e ≤ 2 ^ 53 →
  0 ≤ i →
  i + 1 + Z.of_nat n ≤ 2 ^ 53 →
  pull irange_next (S n) (IRYield fn e i val)
  = Ok ((λ k, range_elem fn (val + 1 + Z.of_nat k) (i + 1 + Z.of_nat k))
          <$> seq 0 n, true).
Proof.
  revert i val. induction n as [|n IH]; intros i val Hend Hlo Hhi Hi Hcount.
  - cbn. rewrite !js_succ_exact by lia. unfold irange_test.
    by rewrite (proj2 (Z.ltb_ge _ _)) by lia.
  - rewrite pull_S. cbn -[pull]. rewrite !js_succ_exact by lia.
    unfold irange_test.
    rewrite (proj2 (Z.ltb_lt _ _)) by lia. cbn -[pull].
    rewrite IH by lia. cbn. rewrite !Z.add_0_r. do 3 f_equal.
    shift_ordinals.
Qed.

Lemma arange_values start e fn :
  let s := default 0 start in
  0 ≤ e - s < 2 ^ 32 →
  - 2 ^ 53 ≤ s →
  e ≤ 2 ^ 53 →
  arange (range_call start e fn)
  = Ok (Some (range_values fn s (Z.to_nat (e - s)))).
Proof.
  intros s [Hlo Hhi] Hs He. unfold arange. rewrite process_range_call.
  fold s. cbn [to_number number_sub new_Array].
  rewrite (proj2 (Z.leb_le _ _) Hlo), (proj2 (Z.ltb_lt _ _) Hhi). cbn.
  f_equal.
  pose proof (arange_loop_fills fn e (Z.to_nat (e - s)) 0 s []) as Hloop.
  cbn [app length] in Hloop. rewrite Hloop; [|lia|done|lia..].
  apply (f_equal Some).
  unfold range_values. apply list_fmap_ext. intros _ k _. f_equal; lia.
Qed.

Lemma irange_values start e fn :
  let s := default 0 start in
  0 ≤ e - s < 2 ^ 32 →
  - 2 ^ 53 ≤ s →
  e ≤ 2 ^ 53 →
  pull irange_next (S (Z.to_nat (e - s))) (irange (range_call start e fn))
  = Ok (range_values fn s (Z.to_nat (e - s)), true).
Proof.
  intros s [Hlo Hlen] Hs He. rewrite pull_S. unfold irange. cbn [irange_next].
  rewrite process_range_call. fold s. cbn [to_number]. unfold irange_test.
  destruct (Z.to_nat (e - s)) as [|n] eqn:Hn.
  - by rewrite (proj2 (Z.ltb_ge _ _)) by lia.
  - rewrite (proj2 (Z.ltb_lt _ _)) by lia. cbn -[pull range_values].
    rewrite pull_irange_yield by lia. cbn -[range_values].
    by rewrite range_values_S.
Qed.

Lemma arange_raises start e fn :
  e < default 0 start →
  arange (range_call start e fn) = Throw (RangeError "Invalid array length").
Proof.
  intros Hlt. unfold arange. rewrite process_range_call.
  cbn [to_number number_sub new_Array].
  by rewrite (proj2 (Z.leb_gt _ _)) by lia.
Qed.

Lemma irange_empty start e fn :
  e ≤ default 0 start →
  pull irange_next 1 (irange (range_call start e fn)) = Ok ([], true).
Proof.
  intros Hle. rewrite pull_S. unfold irange. cbn [irange_next].
  rewrite process_range_call. cbn [to_number]. unfold irange_test.
  by rewrite (proj2 (Z.ltb_ge _ _)) by lia.
Qed.

(** Once [val++] leaves [val] as it is below [end], neither loop
    ends. *)
Lemma arange_loop_stuck fn e bound i val ret :
  js_succ val = val →
  val < e →
  arange_loop fn e bound i val ret = None.
Proof.
  intros Hstuck Hlt. revert i ret.
  induction bound as [|bound IH]; intros i ret; cbn [arange_loop];
    rewrite (proj2 (Z.ltb_lt _ _) Hlt); [done|].
  rewrite Hstuck. apply IH.
Qed.

Lemma pull_irange_stuck e n i val :
  js_succ val = val →
  val < e →
  pull irange_next n (IRYield None e i val) = Ok (replicate n (num val), false).
Proof.
  intros Hstuck Hlt. revert i. induction n as [|n IH]; intros i; [done|].
  rewrite pull_S. cbn -[pull]. rewrite Hstuck. unfold irange_test.
  rewrite (proj2 (Z.ltb_lt _ _) Hlt). cbn -[pull]. by rewrite IH.
Qed.
End RangeFacts.

(** Whenever the eager variant returns an array, that is for
    [0 <= end - start < 2^32] with [start] and [end] within [2^53],
    the lazy variant pulled one element at a time gives the same
    elements, for the four argument combinations. *)
Lemma arange_irange_agree (start : option Z) (e : Z) (fn : option jsfun) :
  0 ≤ e - default 0 start < 2 ^ 32 →
  - 2 ^ 53 ≤ default 0 start →
  e ≤ 2 ^ 53 →
  ∃ xs, arange (range_call start e fn) = Ok (Some xs)
        ∧ pull irange_next (S (length xs)) (irange (range_call start e fn))
          = Ok (xs, true)
        ∧ Z.of_nat (length xs) = e - default 0 start.
Proof.
  intros Hrange Hs He. exists (range_values fn (default 0 start)
                                 (Z.to_nat (e - default 0 start))).
  assert (length (range_values fn (default 0 start)
                    (Z.to_nat (e - default 0 start)))
          = Z.to_nat (e - default 0 start)) as Hlen.
  { unfold range_values. by rewrite length_fmap, length_seq. }
  rewrite Hlen. split; [by apply arange_values|].
  split; [by apply irange_values|lia].
Qed.

(** From [2^53] on the ranges do not end: [val++] leaves [val] as it
    is, so that the eager variant does not return and the lazy variant
    yields [2^53] at every pull. *)
Lemma ranges_from_2_53_do_not_end (e : Z) :
  2 ^ 53 < e < 2 ^ 53 + 2 ^ 32 →
  arange [ANum (2 ^ 53); ANum e] = Ok None
  ∧ ∀ n, pull irange_next n (irange [ANum (2 ^ 53); ANum e])
         = Ok (replicate n (num (2 ^ 53)), false).
Proof.
  intros [Hlo Hhi]. split.
  - unfold arange. cbn [process_arguments lookup list_lookup typeof_number
      shift head tail typeof_function as_function fst to_number number_sub
      new_Array].
    rewrite (proj2 (Z.leb_le 0 _)), (proj2 (Z.ltb_lt _ _)) by lia. cbn [andb].
    cbn [mbind result_bind]. f_equal.
    apply arange_loop_stuck; [apply js_succ_stuck|lia].
  - intros [|n]; [done|]. rewrite pull_S. unfold irange. cbn [irange_next].
    cbn [process_arguments lookup list_lookup typeof_number
      shift head tail typeof_function as_function fst to_number].
    unfold irange_test. rewrite (proj2 (Z.ltb_lt _ _) Hlo).
    cbn -[pull Z.pow]. rewrite pull_irange_stuck; [done|apply js_succ_stuck|lia].
Qed.

(** C6, at the failing inputs: with [end < start] the allocation
    [new Array(end - start)] of the eager variant raises, for the four
    argument combinations, where the lazy variant ends at once. *)
Theorem arange_raises_when_end_is_below_start
    (start : option Z) (e : Z) (fn : option jsfun) :
  e < default 0 start →
  arange (range_call start e fn) = Throw (RangeError "Invalid array length")
  ∧ pull irange_next 1 (irange (range_call start e fn)) = Ok ([], true).
Proof.
  intros Hlt. split; [by apply arange_raises|apply irange_empty; lia].
Qed.

Lemma arange_raises_when_end_is_below_start_witness :
  arange [ANum 3; ANum 1] = Throw (RangeError "Invalid array length")
  ∧ pull irange_next 1 (irange [ANum 3; ANum 1]) = Ok ([], true).
Proof.
  apply (arange_raises_when_end_is_below_start (Some 3) 1 None). cbn. lia.
Defined.

(** C8, at the failing input: called with [(3, 1)] the eager variant
    raises and has no element sequence, while the lazy variant reports
    exhaustion at the first pull; so does [arange(-2)] against
    [irange(-2)]. *)
Theorem eager_range_raises_where_lazy_range_is_empty :
  arange [ANum 3; ANum 1] = Throw (RangeError "Invalid array length")
  ∧ pull irange_next 1 (irange [ANum 3; ANum 1]) = Ok ([], true)
  ∧ arange [ANum (-2)] = Throw (RangeError "Invalid array length")
  ∧ pull irange_next 1 (irange [ANum (-2)]) = Ok ([], true).
Proof. by repeat split. Qed.

(** * Properties of asyncExec *)

Module AsyncFacts.
Import Async.
#[local] Close Scope Z_scope.

(** A move out of [Running], given what the resume of the cursor
    produces. *)
Ltac resume_with H :=
  match goal with
  | r : resumption |- _ =>
      destruct r; cbn; unfold resumeGenerator, throwGenerator;
      rewrite H; cbn; try done
  end.

Section Runs.
Context (R : routine).
Implicit Types (s : point R) (r : resumption) (v e : value) (n m : nat).

Lemma steps_add n m (x : run (point R)) :
  steps R (n + m) x = steps R m (steps R n x).
Proof. revert x. induction n as [|n IH]; intros x; cbn; [done|apply IH]. Qed.

Lemma asyncExec_add n m : asyncExec R (n + m) = steps R m (asyncExec R n).
Proof. apply steps_add. Qed.

Lemma asyncExec_S n : asyncExec R (S n) = step R (asyncExec R n).
Proof. rewrite <- Nat.add_1_r. apply asyncExec_add. Qed.

(** [Done] and [Failed] are terminal. *)
Lemma steps_Done n v : steps R n (Done v) = Done v.
Proof. induction n; [done|by cbn]. Qed.

Lemma steps_Failed n e : steps R n (Failed e) = Failed e.
Proof. induction n; [done|by cbn]. Qed.

(** A resume at which the cursor reports completion settles the
    outer promise with the final value, for good. *)
Lemma returned_settles n s r v m :
  asyncExec R n = Running s r →
  resume R s r = Normal (Returned v) →
  1 ≤ m →
  asyncExec R (n + m) = Done v.
Proof.
  intros Hrun Hret Hm. destruct m as [|m]; [lia|].
  rewrite asyncExec_add, Hrun. cbn [steps].
  assert (step R (Running s r) = Done v) as -> by resume_with Hret.
  apply steps_Done.
Qed.

(** A resume during which a failure is raised and not caught by the
    routine settles the outer promise with that failure, for good. *)
Lemma raised_fails n s r e m :
  asyncExec R n = Running s r →
  resume R s r = Abrupt e →
  1 ≤ m →
  asyncExec R (n + m) = Failed e.
Proof.
  intros Hrun Hraise Hm. destruct m as [|m]; [lia|].
  rewrite asyncExec_add, Hrun. cbn [steps].
  assert (step R (Running s r) = Failed e) as -> by resume_with Hraise.
  apply steps_Failed.
Qed.

(** At a suspension point the run waits for the one promise it was
    handed: an unsettled promise leaves the run where it is. *)
Lemma suspended_waits n s m :
  asyncExec R n = Suspended s Pending →
  asyncExec R (n + m) = Suspended s Pending.
Proof.
  intros Hrun. rewrite asyncExec_add, Hrun.
  induction m as [|m IH]; [done|by cbn].
Qed.

(** An object without [then] handed over at a suspension point is
    fed back in the same move, without passing through
    [Suspended]. *)
Lemma object_without_then_is_fed_back n s r v s' :
  asyncExec R n = Running s r →
  resume R s r = Normal (Yielded v s') →
  then_in v = Normal false →
  asyncExec R (S n) = Running s' (ResumeNext v).
Proof.
  intros Hrun Hyield Hthen. rewrite asyncExec_S, Hrun.
  resume_with Hyield; by rewrite Hthen.
Qed.
(** A move out of [Running] is the resume of the cursor at the point
    it is at, with what the run holds for it. *)
Lemma running_moves n s r :
  asyncExec R n = Running s r →
  asyncExec R (S n) = try_process R (resume R s r).
Proof. intros Hrun. rewrite asyncExec_S, Hrun. by destruct r. Qed.

Lemma fulfilled_resumes n s v :
  asyncExec R n = Suspended s (Fulfilled v) →
  asyncExec R (S n) = Running s (ResumeNext v).
Proof. intros Hrun. by rewrite asyncExec_S, Hrun. Qed.

Lemma rejected_resumes n s e :
  asyncExec R n = Suspended s (Rejected e) →
  asyncExec R (S n) = Running s (ResumeThrow e).
Proof. intros Hrun. by rewrite asyncExec_S, Hrun. Qed.

(** Two moves from a promise that has settled: the continuation is
    called, and the cursor resumed; what comes back is processed. *)
Lemma settled_promise_moves n s p :
  asyncExec R n = Suspended s p →
  asyncExec R (n + 2)
  = match p with
    | Fulfilled v => try_process R (resume R s (ResumeNext v))
    | Rejected e => try_process R (resume R s (ResumeThrow e))
    | Pending => Suspended s Pending
    end.
Proof.
  intros Hrun. replace (n + 2) with (S (S n)) by lia. destruct p as [v|e|].
  - by apply running_moves, fulfilled_resumes.
  - by apply running_moves, rejected_resumes.
  - by rewrite !asyncExec_S, Hrun.
Qed.

End Runs.

(** A value that is not a promise fulfils the outer promise. *)
Lemma resolve_plain (v : value) :
  (∀ p, v ≠ Promise p) → resolve v = Fulfilled v.
Proof. intros Hplain. destruct v; try done. by destruct (Hplain p). Qed.

(** C3, as the code has it: a pending value that settles with success
[v] resumes the cursor with [v] at the suspension point it was awaited
at, so that the run goes on as the routine does when resumed with [v]
there: it is done if the routine returns, it fails if the routine
raises, and it processes the next value if the routine hands one over,
suspending on it if it is a promise.  A resume at which the cursor
reports completion calls [resolve] with the final value, and the run
stays there: the outer promise is fulfilled with a final value that is
not a promise, and it follows a final value that is one, rejected as it
is rejected and pending while it is pending.  The routine that awaits a
promise fulfilled with [5] and returns twice the value it gets fulfils
the outer promise with [10]. *)
Theorem success_is_fed_back_and_completion_settles :
  (∀ (R : routine) n (s : point R) v final m,
      asyncExec R n = Suspended s (Fulfilled v) →
      resume R s (ResumeNext v) = Normal (Returned final) →
      2 ≤ m →
      asyncExec R (n + m) = Done final)
  ∧ (∀ (R : routine) n (s s' : point R) v w,
      asyncExec R n = Suspended s (Fulfilled v) →
      resume R s (ResumeNext v) = Normal (Yielded w s') →
      asyncExec R (n + 2) = try_process R (Normal (Yielded w s'))
      ∧ ∀ p, w = Promise p → asyncExec R (n + 2) = Suspended s' p)
  ∧ (∀ (R : routine) n (s : point R) v e m,
      asyncExec R n = Suspended s (Fulfilled v) →
      resume R s (ResumeNext v) = Abrupt e →
      2 ≤ m →
      asyncExec R (n + m) = Failed e)
  ∧ (∀ (R : routine) n (s : point R) r final m,
      asyncExec R n = Running s r →
      resume R s r = Normal (Returned final) →
      1 ≤ m →
      asyncExec R (n + m) = Done final
      ∧ outer (asyncExec R (n + m)) = resolve final
      ∧ ((∀ p, final ≠ Promise p) →
         outer (asyncExec R (n + m)) = Fulfilled final)
      ∧ (∀ e, final = Promise (Rejected e) →
         outer (asyncExec R (n + m)) = Rejected e)
      ∧ (final = Promise Pending → outer (asyncExec R (n + m)) = Pending))
  ∧ (∀ m, 4 ≤ m →
      asyncExec doubling m = Done (Num (Int 10))
      ∧ outer (asyncExec doubling m) = Fulfilled (Num (Int 10))).
Proof.
  assert (∀ (R : routine) n (s : point R) r final m,
             asyncExec R n = Running s r →
             resume R s r = Normal (Returned final) →
             1 ≤ m →
             asyncExec R (n + m) = Done final
             ∧ outer (asyncExec R (n + m)) = resolve final) as Hdone.
  { intros R n s r final m Hrun Hret Hm.
    assert (asyncExec R (n + m) = Done final) as ->; [|done].
    by apply (returned_settles R n s r). }
  split; [|split; [|split; [|split]]].
  - intros R n s v final m Hrun Hret Hm.
    replace (n + m) with (S n + (m - 1)) by lia.
    apply (returned_settles R (S n) s (ResumeNext v));
      [by apply fulfilled_resumes|done|lia].
  - intros R n s s' v w Hrun Hyield.
    rewrite (settled_promise_moves R n s _ Hrun), Hyield.
    split; [done|]. by intros p ->.
  - intros R n s v e m Hrun Hraise Hm.
    replace (n + m) with (S n + (m - 1)) by lia.
    apply (raised_fails R (S n) s (ResumeNext v));
      [by apply fulfilled_resumes|done|lia].
  - intros R n s r final m Hrun Hret Hm.
    destruct (Hdone R n s r final m Hrun Hret Hm) as [Hrun' Houter].
    split; [done|]. split; [done|]. rewrite Houter.
    split; [apply resolve_plain|]. split; [by intros e ->|by intros ->].
  - intros m Hm. replace m with (3 + (m - 3)) by lia.
    by apply (Hdone doubling 3 AtYield (ResumeNext (Num (Int 5))));
      [..|lia].
Qed.

Lemma success_is_fed_back_and_completion_settles_witness :
  asyncExec doubling (2 + 2) = Done (Num (Int 10))
  ∧ asyncExec (await_each [Promise (Fulfilled (Num (Int 1)));
                           Promise (Fulfilled (Num (Int 2)))]
                 (λ vs, Obj [("first", default Undefined (head vs))])) (2 + 2)
    = Suspended (ChainAt [Num (Int 1)] []) (Fulfilled (Num (Int 2)))
  ∧ asyncExec (await_throw (Promise (Fulfilled (Str "thrown")))) (2 + 2)
    = Failed (Str "thrown")
  ∧ outer (asyncExec doubling (3 + 1)) = Fulfilled (Num (Int 10))
  ∧ outer (asyncExec doubling 4) = Fulfilled (Num (Int 10)).
Proof.
  destruct success_is_fed_back_and_completion_settles
    as (Hret & Hyield & Hraise & Hdone & Hrun).
  split; [|split; [|split; [|split]]].
  - apply (Hret doubling 2 AtYield (Num (Int 5))); [reflexivity..|lia].
  - apply (Hyield (await_each [Promise (Fulfilled (Num (Int 1)));
                               Promise (Fulfilled (Num (Int 2)))]
                     (λ vs, Obj [("first", default Undefined (head vs))]))
             2 (ChainAt [] [Promise (Fulfilled (Num (Int 2)))])
             (ChainAt [Num (Int 1)] []) (Num (Int 1))
             (Promise (Fulfilled (Num (Int 2)))));
      reflexivity.
  - apply (Hraise (await_throw (Promise (Fulfilled (Str "thrown")))) 2
             AtYield (Str "thrown")); [reflexivity..|lia].
  - apply (Hdone doubling 3 AtYield (ResumeNext (Num (Int 5))));
      [reflexivity| reflexivity|lia|discriminate].
  - apply Hrun. lia.
Defined.

(** C3, as the claim states it, at a routine that awaits a promise
fulfilled with [5] and then returns a promise rejected with [F]: the
cursor reports completion with that promise as its final value, and
the outer promise is not settled with it: it is rejected with [F].
When the promise returned is pending, the outer promise is pending. *)
Lemma returned_promise_is_followed :
  asyncExec returning_a_rejection 4 = Done (Promise (Rejected failure_F))
  ∧ outer (asyncExec returning_a_rejection 4) = Rejected failure_F
  ∧ outer (asyncExec returning_a_rejection 4)
    ≠ Fulfilled (Promise (Rejected failure_F))
  ∧ outer (asyncExec (await_then (Promise (Fulfilled (Num (Int 5))))
                        (λ _, Promise Pending)) 4)
    = Pending.
Proof. by repeat split. Qed.

(** C2, as the code has it: a pending value that settles with failure
[E] resumes the cursor by raising [E] at the suspension point it was
awaited at, so that the run goes on as the routine does when [E] is
raised there.  If the routine catches [E] and returns a fallback,
[resolve] is called with the fallback: the outer promise is fulfilled
with a fallback that is not a promise, and it follows a fallback that
is one, rejected as it is rejected and pending while it is pending.  If
the routine catches [E] and hands over another value, that one is
processed, the run suspending on it if it is a promise.  A failure
raised during a resume and left uncaught, [E] or another, brings the
run to [Failed], where it stays, and the outer promise is rejected with
that failure.  The routines of the two scenarios, one catching [E] and
one not, behave so. *)
Theorem failure_is_raised_at_the_suspension_point :
  (∀ (R : routine) n (s : point R) E fallback m,
      asyncExec R n = Suspended s (Rejected E) →
      resume R s (ResumeThrow E) = Normal (Returned fallback) →
      2 ≤ m →
      asyncExec R (n + m) = Done fallback
      ∧ outer (asyncExec R (n + m)) = resolve fallback
      ∧ ((∀ p, fallback ≠ Promise p) →
         outer (asyncExec R (n + m)) = Fulfilled fallback)
      ∧ (∀ e, fallback = Promise (Rejected e) →
         outer (asyncExec R (n + m)) = Rejected e)
      ∧ (fallback = Promise Pending → outer (asyncExec R (n + m)) = Pending))
  ∧ (∀ (R : routine) n (s s' : point R) E w,
      asyncExec R n = Suspended s (Rejected E) →
      resume R s (ResumeThrow E) = Normal (Yielded w s') →
      asyncExec R (n + 2) = try_process R (Normal (Yielded w s'))
      ∧ ∀ p, w = Promise p → asyncExec R (n + 2) = Suspended s' p)
  ∧ (∀ (R : routine) n (s : point R) E e m,
      asyncExec R n = Suspended s (Rejected E) →
      resume R s (ResumeThrow E) = Abrupt e →
      2 ≤ m →
      asyncExec R (n + m) = Failed e
      ∧ outer (asyncExec R (n + m)) = Rejected e)
  ∧ (∀ (R : routine) n (s : point R) r e m,
      asyncExec R n = Running s r →
      resume R s r = Abrupt e →
      1 ≤ m →
      asyncExec R (n + m) = Failed e
      ∧ outer (asyncExec R (n + m)) = Rejected e)
  ∧ (∀ E k fallback m, 4 ≤ m →
      (∀ p, fallback ≠ Promise p) →
      outer (asyncExec (await_catch (Promise (Rejected E)) k fallback) m)
      = Fulfilled fallback)
  ∧ (∀ E k m, 4 ≤ m →
      asyncExec (await_then (Promise (Rejected E)) k) m = Failed E
      ∧ outer (asyncExec (await_then (Promise (Rejected E)) k) m)
        = Rejected E).
Proof.
  assert (∀ (R : routine) n (s : point R) r e m,
             asyncExec R n = Running s r →
             resume R s r = Abrupt e →
             1 ≤ m →
             asyncExec R (n + m) = Failed e
             ∧ outer (asyncExec R (n + m)) = Rejected e) as Hfail.
  { intros R n s r e m Hrun Hraise Hm.
    assert (asyncExec R (n + m) = Failed e) as ->; [|done].
    by apply (raised_fails R n s r). }
  split; [|split; [|split; [|split; [|split]]]].
  - intros R n s E fallback m Hrun Hret Hm.
    assert (asyncExec R (n + m) = Done fallback) as ->.
    { replace (n + m) with (S n + (m - 1)) by lia.
      apply (returned_settles R (S n) s (ResumeThrow E));
        [by apply rejected_resumes|done|lia]. }
    split; [done|]. split; [done|]. cbn [outer].
    split; [apply resolve_plain|]. split; [by intros e ->|by intros ->].
  - intros R n s s' E w Hrun Hyield.
    rewrite (settled_promise_moves R n s _ Hrun), Hyield.
    split; [done|]. by intros p ->.
  - intros R n s E e m Hrun Hraise Hm.
    replace (n + m) with (S n + (m - 1)) by lia.
    apply (Hfail R (S n) s (ResumeThrow E));
      [by apply rejected_resumes|done|lia].
  - exact Hfail.
  - intros E k fallback m Hm Hplain. replace m with (3 + (m - 3)) by lia.
    rewrite (returned_settles (await_catch (Promise (Rejected E)) k fallback)
               3 AtYield (ResumeThrow E) fallback); [|done..|lia].
    by apply resolve_plain.
  - intros E k m Hm. replace m with (3 + (m - 3)) by lia.
    by apply (Hfail (await_then (Promise (Rejected E)) k)
                3 AtYield (ResumeThrow E)); [..|lia].
Qed.

Lemma failure_is_raised_at_the_suspension_point_witness :
  outer (asyncExec recovering (2 + 2)) = Fulfilled (Str "Could not load.")
  ∧ asyncExec (await_retry (Promise (Rejected failure_E))
                 (Promise (Fulfilled (Num (Int 5)))) double) (2 + 2)
    = Suspended AtSecondYield (Fulfilled (Num (Int 5)))
  ∧ asyncExec not_recovering (2 + 2) = Failed failure_E
  ∧ outer (asyncExec not_recovering (3 + 1)) = Rejected failure_E
  ∧ outer (asyncExec recovering 4) = Fulfilled (Str "Could not load.")
  ∧ outer (asyncExec not_recovering 4) = Rejected failure_E.
Proof.
  destruct failure_is_raised_at_the_suspension_point
    as (Hcatch & Hyield & Huncaught & Hfail & Hrecover & Hrun).
  split; [|split; [|split; [|split; [|split]]]].
  - apply (Hcatch recovering 2 AtYield failure_E (Str "Could not load."));
      [reflexivity|reflexivity|lia|discriminate].
  - apply (Hyield (await_retry (Promise (Rejected failure_E))
                     (Promise (Fulfilled (Num (Int 5)))) double)
             2 AtFirstYield AtSecondYield failure_E
             (Promise (Fulfilled (Num (Int 5))))); reflexivity.
  - apply (Huncaught not_recovering 2 AtYield failure_E failure_E);
      [reflexivity..|lia].
  - apply (Hfail not_recovering 3 AtYield (ResumeThrow failure_E) failure_E);
      [reflexivity..|lia].
  - apply (Hrecover failure_E double (Str "Could not load.")); [lia|discriminate].
  - apply (Hrun failure_E double). lia.
Defined.

(** C2, as the claim states it, at a routine that catches [E] and
returns a promise rejected with [F] as its fallback: the outer promise
is not settled with success by the fallback, it is rejected with
[F]. *)
Lemma fallback_promise_is_followed :
  asyncExec recovering_with_a_rejection 4 = Done (Promise (Rejected failure_F))
  ∧ outer (asyncExec recovering_with_a_rejection 4) = Rejected failure_F
  ∧ outer (asyncExec recovering_with_a_rejection 4)
    ≠ Fulfilled (Promise (Rejected failure_F)).
Proof. by repeat split. Qed.

(** C9, at the failing input: a routine that hands over the number
[5], a primitive, is not resumed with it: the test ['then' in 5]
raises, the raise is caught around the resume, and the run fails with
that error and stays failed; the same holds for [undefined] and for a
string. *)
Theorem primitive_at_a_suspension_point_fails_the_run :
  let not_an_object :=
    Error "TypeError" "Cannot use 'in' operator to search for 'then'" in
  (∀ m, asyncExec yielding_five (2 + m) = Failed not_an_object)
  ∧ asyncExec (await_then Undefined (λ v, v)) 2 = Failed not_an_object
  ∧ asyncExec (await_then (Str "ready") (λ v, v)) 2 = Failed not_an_object.
Proof.
  intros not_an_object. split; [|by split].
  intros m. rewrite asyncExec_add. apply steps_Failed.
Qed.

End AsyncFacts.

(** * Further properties of the sequence helpers *)

(** ** all and any *)

Section QuantifierFacts.
Context {A : Type} `{JSValue A}.
Implicit Types (it : iterable A) (f : A → bool) (xs : list A).

Lemma all_loop_Forall f xs : all_loop f xs = true ↔ Forall (λ x, f x = true) xs.
Proof.
  induction xs as [|x xs IH]; cbn; [by split|].
  rewrite Forall_cons, <- IH. destruct (f x); cbn.
  - split; [done|by intros [_ ?]].
  - split; [done|by intros [? _]].
Qed.

Lemma any_loop_Exists f xs : any_loop f xs = true ↔ Exists (λ x, f x = true) xs.
Proof.
  induction xs as [|x xs IH]; cbn.
  - split; [done|by intros ?%Exists_nil].
  - rewrite Exists_cons, <- IH. destruct (f x); cbn.
    + split; [by left|done].
    + split; [by right|by intros [?|?]].
Qed.

Lemma any_loop_all_loop f xs : any_loop f xs = negb (all_loop (negb ∘ f) xs).
Proof.
  induction xs as [|x xs IH]; cbn; [done|]. by destruct (f x).
Qed.

(** X1: on a sequence that the adapter accepts, [all] answers [true]
    exactly when every element walked passes the test, which includes
    the empty sequence, and [any] answers [true] exactly when some
    element walked passes it. *)
Theorem all_and_any_decide_the_quantifiers it it' f :
  iterator it = Ok it' →
  (all it (Some f) = Ok true ↔ ∀ x, x ∈ elements it' → f x = true)
  ∧ (any it (Some f) = Ok true ↔ ∃ x, x ∈ elements it' ∧ f x = true)
  ∧ (elements it' = [] → all it (Some f) = Ok true ∧ any it (Some f) = Ok false).
Proof.
  intros Hit. unfold all, any. rewrite Hit. cbn. split; [|split].
  - rewrite <- Forall_forall, <- all_loop_Forall.
    split; [by intros [= ->]|by intros ->].
  - rewrite <- Exists_exists, <- any_loop_Exists.
    split; [by intros [= ->]|by intros ->].
  - by intros ->.
Qed.

(** X2: [any] with a test is the negation of [all] with the negated
    test, on every value, and both raise the same error on a value that
    the adapter rejects; without a test both use the boolean cast. *)
Theorem any_is_not_all_of_the_negation it f :
  any it (Some f) = (b ← all it (Some (negb ∘ f)); Ok (negb b))
  ∧ any it None = (b ← all it (Some (negb ∘ truthy)); Ok (negb b))
  ∧ all it None = all it (Some truthy).
Proof.
  unfold all, any. destruct (iterator it) as [it'|e]; cbn; [|done].
  by rewrite !any_loop_all_loop.
Qed.
End QuantifierFacts.

Lemma all_and_any_decide_the_quantifiers_witness :
  (all (array_like 2 {[0%nat := num 1; 1%nat := num 0]}) (Some value_truthy)
   = Ok true ↔ ∀ x, x ∈ [num 1; num 0] → value_truthy x = true)
  ∧ (any (array_like 2 {[0%nat := num 1; 1%nat := num 0]}) (Some value_truthy)
     = Ok true ↔ ∃ x, x ∈ [num 1; num 0] ∧ value_truthy x = true).
Proof.
  destruct (all_and_any_decide_the_quantifiers
              (array_like 2 {[0%nat := num 1; 1%nat := num 0]})
              (Gen [num 1; num 0]) value_truthy) as (Hall & Hany & _);
    [vm_compute; reflexivity|].
  exact (conj Hall Hany).
Defined.

(** X3: the adapter reads a missing slot of an array-like as
    [undefined]: without a test, [all] answers [false] on an array-like
    that lacks a property at an index below its length. *)
Theorem all_is_false_on_an_array_like_with_a_hole
    (len : Z) (props : gmap nat jsval) (k : nat) :
  Z.of_nat k < len →
  props !! k = None →
  all (array_like len props) None = Ok false.
Proof.
  intros Hk Hhole. unfold all, array_like. cbn.
  destruct (all_loop _ _) eqn:Hall; [|done].
  apply all_loop_Forall in Hall. rewrite Forall_lookup in Hall.
  specialize (Hall k VUndefined). cbn in Hall. rewrite Hall; [done|].
  rewrite list_lookup_fmap, lookup_seq_lt by lia. cbn. by rewrite Hhole.
Qed.

Lemma all_is_false_on_an_array_like_with_a_hole_witness :
  all (array_like 3 {[0%nat := num 1; 1%nat := num 2]}) None = Ok false.
Proof.
  apply (all_is_false_on_an_array_like_with_a_hole 3 _ 2); [lia|reflexivity].
Defined.

(** ** iterator, first and last *)

Section AdapterFacts.
Context {A : Type} `{JSValue A}.
Implicit Types (it : iterable A) (xs : list A).


Lemma index_of_the_last_slot xs :
  index (Arr xs) (Z.of_nat (length xs) - 1) = list.last xs.
Proof.
  unfold index. destruct xs as [|x xs]; [done|].
  rewrite (proj2 (Z.ltb_ge _ _)) by (cbn; lia).
  rewrite last_lookup. f_equal. cbn. lia.
Qed.

(** X6: the two paths of [last] agree: reading the final index of an
    array gives what exhausting a cursor over the same elements gives;
    so do the two paths of [first]. *)
Theorem last_of_an_array_is_last_of_its_cursor xs :
  last (Arr xs) = last (Gen xs) ∧ first (Arr xs) = first (Gen xs).
Proof.
  split; [|done]. unfold last. cbn [has_length has_symbol_iterator length_of].
  by rewrite index_of_the_last_slot.
Qed.
End AdapterFacts.


(** X7: on an array-like, [last] reads what the adapted cursor would
    yield last; a length that is not positive and a final slot that is
    missing both make it read [undefined], which gives the empty
    [Optional], while [first] on the same object looks at index [0]
    alone. *)
Theorem last_commutes_with_the_adapter (len : Z) (props : gmap nat jsval) :
  last (array_like len props) = (it' ← iterator (array_like len props); last it')
  ∧ (len ≤ 0 → last (array_like len props) = Ok Optional.empty)
  ∧ (0 < len → props !! Z.to_nat (len - 1) = None →
     last (array_like len props) = Ok Optional.empty)
  ∧ (∀ x, props !! 0%nat = Some x →
     first (array_like len props) = Ok (Optional.of_ x)).
Proof.
  split; [|split; [|split]].
  - unfold last, array_like, index. cbn. f_equal.
    destruct (Z.ltb_spec (len - 1) 0) as [Hneg|Hpos].
    + by replace (Z.to_nat len) with 0%nat by lia.
    + replace (Z.to_nat len) with (S (Z.to_nat (len - 1))) by lia.
      rewrite seq_S, fmap_app. simpl (_ <$> [_]). rewrite last_snoc. cbn.
      by destruct (props !! Z.to_nat (len - 1)).
  - intros Hlen. unfold last, array_like, index. cbn.
    by rewrite (proj2 (Z.ltb_lt _ _)) by lia.
  - intros Hlen Hhole. unfold last, array_like, index. cbn.
    rewrite (proj2 (Z.ltb_ge _ _)) by lia. by rewrite Hhole.
  - intros x Hx. unfold first, array_like, index. cbn.
    change (Z.to_nat 0) with 0%nat. by rewrite Hx.
Qed.

Lemma last_commutes_with_the_adapter_witness :
  last (array_like 0 {[0%nat := num 7]}) = Ok Optional.empty
  ∧ last (array_like 2 {[0%nat := num 7]}) = Ok Optional.empty
  ∧ first (array_like 0 {[0%nat := num 7]}) = Ok (Optional.of_ (num 7)).
Proof.
  destruct (last_commutes_with_the_adapter 0 {[0%nat := num 7]})
    as (_ & Hempty & _ & Hfirst).
  destruct (last_commutes_with_the_adapter 2 {[0%nat := num 7]})
    as (_ & _ & Hhole & _).
  split; [apply Hempty; lia|].
  split; [apply Hhole; [lia|reflexivity]|].
  apply Hfirst. reflexivity.
Defined.

(** ** indexOf without an equality function *)

Section IndexOfFacts.
Implicit Types (item x : jsval) (xs : list jsval) (it : iterable jsval).

Lemma strict_eq_sym a b : strict_eq a b = strict_eq b a.
Proof.
  destruct a as [| |x|[x|]], b as [| |y|[y|]]; cbn; try done.
  - by destruct x, y.
  - apply Z.eqb_sym.
Qed.

(** The loop stops at the least position whose element passes the
    test. *)
Lemma indexOf_loop_finds (test : jsval → bool) i0 xs :
  indexOf_loop test i0 xs
  = match list_find (λ x, test x = true) xs with
    | Some (k, _) => num (i0 + Z.of_nat k)
    | None => VBool false
    end.
Proof.
  revert i0. induction xs as [|x xs IH]; intros i0; cbn; [done|].
  case_decide as Hx.
  - rewrite Hx. cbn. by rewrite Z.add_0_r.
  - apply not_true_is_false in Hx. rewrite Hx, IH.
    destruct (list_find _ xs) as [[k y]|]; cbn -[Z.of_nat Z.add]; [|done].
    unfold num. do 2 f_equal. lia.
Qed.

Lemma native_indexOf_finds item i0 xs :
  native_indexOf item i0 xs
  = match list_find (λ x, strict_eq item x = true) xs with
    | Some (k, _) => i0 + Z.of_nat k
    | None => -1
    end.
Proof.
  revert i0. induction xs as [|x xs IH]; intros i0; cbn; [done|].
  rewrite (strict_eq_sym x item). case_decide as Hx.
  - rewrite Hx. cbn. by rewrite Z.add_0_r.
  - apply not_true_is_false in Hx. rewrite Hx, IH.
    destruct (list_find _ xs) as [[k y]|]; cbn -[Z.of_nat Z.add]; [|done]. lia.
Qed.

Lemma indexOf_by_strict_equality it it' item :
  iterator it = Ok it' →
  isNaN item = false →
  indexOf it item None
  = Ok match list_find (λ x, strict_eq item x = true) (elements it') with
       | Some (k, _) => num (Z.of_nat k)
       | None => VBool false
       end.
Proof.
  intros Hit Hnan. unfold indexOf. rewrite Hnan.
  destruct (has_indexOf it) eqn:Hnative.
  - destruct it; try done. injection Hit as <-. cbn [elements].
    rewrite native_indexOf_finds.
    destruct (list_find _ elems) as [[k y]|]; [|done].
    by rewrite (proj2 (Z.ltb_ge _ _)) by lia.
  - rewrite Hit. cbn. by rewrite indexOf_loop_finds.
Qed.

(** X8: for a searched item that is neither not-a-number nor
    [undefined], and no equality function, [indexOf] returns the least
    position whose element is strictly equal to the item, and [false]
    exactly when no element walked is. *)
Theorem indexOf_returns_the_least_match it it' item :
  iterator it = Ok it' →
  isNaN item = false →
  (∀ i, indexOf it item None = Ok (num i) →
        ∃ k x, i = Z.of_nat k
               ∧ elements it' !! k = Some x ∧ strict_eq item x = true
               ∧ ∀ j y, (j < k)%nat → elements it' !! j = Some y →
                        strict_eq item y = false)
  ∧ (indexOf it item None = Ok (VBool false)
     ↔ ∀ x, x ∈ elements it' → strict_eq item x = false)
  ∧ (∃ r, indexOf it item None = Ok r
          ∧ (r = VBool false ∨ ∃ k, r = num (Z.of_nat k))).
Proof.
  intros Hit Hnan. rewrite (indexOf_by_strict_equality it it' item Hit Hnan).
  destruct (list_find _ (elements it')) as [[k x]|] eqn:Hfind.
  - apply list_find_Some in Hfind as (Hk & Hx & Hleast).
    split; [|split].
    + intros i [= <-]. exists k, x. repeat split; [done..|].
      intros j y Hj Hy. specialize (Hleast j y Hy Hj).
      by destruct (strict_eq item y).
    + split; [done|]. intros Hnone.
      apply list_elem_of_lookup_2 in Hk. specialize (Hnone x Hk). congruence.
    + eauto.
  - apply list_find_None in Hfind. rewrite Forall_forall in Hfind.
    split; [done|split].
    + split; [|done]. intros _ x Hx. specialize (Hfind x Hx).
      by destruct (strict_eq item x).
    + eauto.
Qed.

Lemma indexOf_returns_the_least_match_witness :
  indexOf (Arr [num 1; num 2; num 3; num 2]) (num 2) None = Ok (num 1)
  ∧ ∃ k x, 1 = Z.of_nat k
           ∧ [num 1; num 2; num 3; num 2] !! k = Some x
           ∧ strict_eq (num 2) x = true.
Proof.
  split; [reflexivity|].
  destruct (indexOf_returns_the_least_match
              (Arr [num 1; num 2; num 3; num 2]) _ (num 2) eq_refl eq_refl)
    as (Hleast & _).
  destruct (Hleast 1 eq_refl) as (k & x & Hk & Hx & Heq & _). eauto.
Defined.

(** X9: the native fast path taken on an array and the loop taken on
    any other sequence give the same answer for the same elements. *)
Theorem indexOf_fast_path_agrees_with_the_loop xs item :
  indexOf (Arr xs) item None = indexOf (Gen xs) item None.
Proof.
  destruct (isNaN item) eqn:Hnan.
  - unfold indexOf. by rewrite Hnan.
  - by rewrite (indexOf_by_strict_equality (Arr xs) (Arr xs)),
               (indexOf_by_strict_equality (Gen xs) (Gen xs)).
Qed.

(** X10: the global [isNaN] converts its argument first, so a search
    for [undefined] takes the not-a-number branch too: for an item that
    [isNaN] accepts the answer is [0] on every sequence with an
    element, whatever its elements, and [false] on an empty one. *)
Theorem indexOf_of_an_isNaN_item it it' item :
  iterator it = Ok it' →
  isNaN item = true →
  indexOf it item None
  = Ok match elements it' with [] => VBool false | _ :: _ => num 0 end.
Proof.
  intros Hit Hnan. unfold indexOf. rewrite Hnan, Hit. cbn.
  by rewrite indexOf_loop_constant.
Qed.

Lemma indexOf_of_an_isNaN_item_witness :
  indexOf (Gen [num 1; num 2; num 3]) VUndefined None = Ok (num 0).
Proof.
  exact (indexOf_of_an_isNaN_item (Gen [num 1; num 2; num 3]) _ VUndefined
           eq_refl eq_refl).
Defined.
End IndexOfFacts.

(** ** imap and concat *)

(** Two cursor states with the same first move are pulled alike. *)
Lemma pull_same_first_move {S A : Type} (next : S → result (iteration A * S))
    n s1 s2 :
  next s1 = next s2 → pull next (Datatypes.S n) s1 = pull next (Datatypes.S n) s2.
Proof. intros Heq. by rewrite !pull_S, Heq. Qed.

Section MapConcatFacts.
Context {A : Type} `{JSValue A}.
Implicit Types (it bad : iterable A) (xs : list A).
Implicit Types (its good rest : list (iterable A)).

Lemma pull_imap_loop {B} it (f : A → Z → iterable A → B) i xs :
  pull imap_next (S (length xs)) (IMLoop it f i xs)
  = Ok (list.imap (λ k x, f x (i + Z.of_nat k) it) xs, true).
Proof.
  revert i. induction xs as [|x xs IH]; intros i; [done|].
  rewrite pull_S. cbn -[pull Z.of_nat]. rewrite IH. cbn -[Z.of_nat].
  rewrite Z.add_0_r. do 3 f_equal.
  apply imap_ext. intros k y _. cbn -[Z.of_nat]. f_equal. lia.
Qed.

(** The first pull of the cursor of [imap] adapts the sequence and
    enters the loop at ordinal [0]. *)
Lemma pull_imap_start {B} it it' (f : A → Z → iterable A → B) n :
  iterator it = Ok it' →
  pull imap_next (S n) (imap it f)
  = pull imap_next (S n) (IMLoop it f 0 (elements it')).
Proof.
  intros Hit. apply pull_same_first_move. unfold imap. cbn. by rewrite Hit.
Qed.

(** X11: pulled to its end, the cursor of [imap] yields one image per
    element that the adapter walks, in order: the image of the element
    at ordinal [k] is [mapFn(element, k, iterable)], the ordinals
    starting at [0] and the third argument being the sequence as it was
    given. *)
Theorem imap_yields_the_images {B} it it' (f : A → Z → iterable A → B) :
  iterator it = Ok it' →
  pull imap_next (S (length (elements it'))) (imap it f)
  = Ok (list.imap (λ k x, f x (Z.of_nat k) it) (elements it'), true).
Proof.
  intros Hit.
  rewrite (pull_imap_start it it' f _ Hit), pull_imap_loop. do 2 f_equal.
Qed.

Lemma concat_inner_empty it its :
  has_symbol_iterator it = true →
  concat_next (CInner [] (it :: its)) = concat_next (CInner (elements it) its).
Proof.
  intros Hit. cbn. unfold for_of. rewrite Hit. cbn. by destruct (elements it).
Qed.

Lemma pull_concat_inner xs its :
  forallb has_symbol_iterator its = true →
  pull concat_next (S (length (xs ++ mjoin (elements <$> its)))) (CInner xs its)
  = Ok (xs ++ mjoin (elements <$> its), true).
Proof.
  revert xs. induction its as [|it its IH]; intros xs Hits.
  - cbn [fmap list_fmap mjoin list_join]. rewrite app_nil_r.
    induction xs as [|x xs IHxs]; [done|].
    rewrite pull_S. cbn -[pull]. by rewrite IHxs.
  - apply andb_prop in Hits as [Hit Hits].
    induction xs as [|x xs IHxs].
    + rewrite (pull_same_first_move _ _ _ (CInner (elements it) its))
        by by apply concat_inner_empty.
      apply (IH (elements it) Hits).
    + rewrite pull_S. cbn -[pull mjoin]. cbn -[pull mjoin] in IHxs.
      by rewrite IHxs.
Qed.

(** X12: pulled to its end, the cursor of [concat] over sequences that
    have [Symbol.iterator] yields the elements of the first sequence,
    then those of the second, and so on; empty sequences are passed
    over. *)
Theorem concat_yields_the_sequences_in_order its :
  forallb has_symbol_iterator its = true →
  pull concat_next (S (length (mjoin (elements <$> its)))) (concat its)
  = Ok (mjoin (elements <$> its), true).
Proof.
  intros Hits.
  rewrite (pull_same_first_move _ _ _ (CInner [] its)) by done.
  apply (pull_concat_inner [] its Hits).
Qed.

Lemma pull_concat_until_failure xs good bad rest :
  forallb has_symbol_iterator good = true →
  has_symbol_iterator bad = false →
  let yielded := xs ++ mjoin (elements <$> good) in
  pull concat_next (length yielded) (CInner xs (good ++ bad :: rest))
  = Ok (yielded, false)
  ∧ pull concat_next (S (length yielded)) (CInner xs (good ++ bad :: rest))
    = Throw (TypeError "iterable is not iterable").
Proof.
  intros Hgood Hbad. cbn zeta. revert xs.
  induction good as [|it good IH]; intros xs.
  - cbn [fmap list_fmap mjoin list_join app]. rewrite app_nil_r.
    induction xs as [|x xs IHxs].
    + split; [done|]. cbn. unfold for_of. by rewrite Hbad.
    + destruct IHxs as [IH1 IH2]. split.
      * cbn [length]. rewrite pull_S. cbn -[pull]. by rewrite IH1.
      * cbn [length]. rewrite pull_S. cbn -[pull]. by rewrite IH2.
  - apply andb_prop in Hgood as [Hit Hgood]. specialize (IH Hgood).
    induction xs as [|x xs IHxs].
    + destruct (IH (elements it)) as [IH1 IH2]. cbn [app] in *.
      cbn [fmap list_fmap mjoin list_join]. split.
      * destruct (elements it ++ mjoin (elements <$> good)) as [|y ys] eqn:Hys;
          [done|].
        cbn [length] in *.
        by rewrite (pull_same_first_move _ _ _ (CInner (elements it) (good ++ bad :: rest)))
          by by apply concat_inner_empty.
      * by rewrite (pull_same_first_move _ _ _ (CInner (elements it) (good ++ bad :: rest)))
          by by apply concat_inner_empty.
    + destruct IHxs as [IH1 IH2]. split.
      * cbn [app length]. rewrite pull_S. cbn -[pull mjoin].
        cbn -[pull mjoin] in IH1. by rewrite IH1.
      * cbn [app length]. rewrite pull_S. cbn -[pull mjoin].
        cbn -[pull mjoin] in IH2. by rewrite IH2.
Qed.

(** X13: [concat] raises late: when a sequence without
    [Symbol.iterator] follows sequences that have it, the elements of
    the earlier sequences are all yielded first, and the pull after
    them raises. *)
Theorem concat_raises_after_the_earlier_sequences good bad rest :
  forallb has_symbol_iterator good = true →
  has_symbol_iterator bad = false →
  pull concat_next (length (mjoin (elements <$> good)))
    (concat (good ++ bad :: rest))
  = Ok (mjoin (elements <$> good), false)
  ∧ pull concat_next (S (length (mjoin (elements <$> good))))
      (concat (good ++ bad :: rest))
    = Throw (TypeError "iterable is not iterable").
Proof.
  intros Hgood Hbad.
  destruct (pull_concat_until_failure [] good bad rest Hgood Hbad) as [H1 H2].
  cbn [app] in *. split.
  - destruct (mjoin (elements <$> good)) as [|y ys]; [done|].
    cbn [length] in *.
    by rewrite (pull_same_first_move _ _ _ (CInner [] (good ++ bad :: rest))).
  - by rewrite (pull_same_first_move _ _ _ (CInner [] (good ++ bad :: rest))).
Qed.
End MapConcatFacts.

Lemma imap_yields_the_images_witness :
  pull imap_next 3
    (imap (array_like 2 {[0%nat := num 7]}) (λ x k _, [x; num k]))
  = Ok ([[num 7; num 0]; [VUndefined; num 1]], true).
Proof.
  apply (imap_yields_the_images (array_like 2 {[0%nat := num 7]})
           (Gen [num 7; VUndefined]) (λ x k _, [x; num k])).
  vm_compute. reflexivity.
Defined.

Lemma concat_yields_the_sequences_in_order_witness :
  pull concat_next 4 (concat [Arr [num 1; num 2]; Gen []; Arr [num 3]])
  = Ok ([num 1; num 2; num 3], true).
Proof.
  exact (concat_yields_the_sequences_in_order
           [Arr [num 1; num 2]; Gen []; Arr [num 3]] eq_refl).
Defined.

Lemma concat_raises_after_the_earlier_sequences_witness :
  pull concat_next 2 (concat [Arr [num 1; num 2]; array_like 1 ∅; Arr [num 3]])
  = Ok ([num 1; num 2], false)
  ∧ pull concat_next 3 (concat [Arr [num 1; num 2]; array_like 1 ∅; Arr [num 3]])
    = Throw (TypeError "iterable is not iterable").
Proof.
  exact (concat_raises_after_the_earlier_sequences
           [Arr [num 1; num 2]] (array_like 1 ∅) [Arr [num 3]] eq_refl eq_refl).
Defined.

(** ** Helpers that do not go through the adapter *)

Lemma symbol_iterators_fail (before after : list (iterable jsval)) it :
  has_symbol_iterator it = false →
  mapM symbol_iterator (before ++ it :: after)
  = Throw (TypeError "iterable[Symbol.iterator] is not a function").
Proof.
  intros Hit. induction before as [|b before IH].
  - change (mapM symbol_iterator ([] ++ it :: after))
      with (symbol_iterator it ≫= λ c,
            mapM symbol_iterator after ≫= λ cs, Ok (c :: cs)).
    unfold symbol_iterator. by rewrite Hit.
  - change (mapM symbol_iterator ((b :: before) ++ it :: after))
      with (symbol_iterator b ≫= λ c,
            mapM symbol_iterator (before ++ it :: after) ≫= λ cs, Ok (c :: cs)).
    rewrite IH. unfold symbol_iterator. by destruct (has_symbol_iterator b).
Qed.

(** X14: an array-like, which [all], [any], [indexOf] and [imap] walk
    through the adapter, is rejected by the helpers that loop over their
    arguments directly: [zip] raises at its first pull when any of its
    inputs is one, and [concat] and [partition] raise on it. *)
Theorem array_likes_are_rejected_without_the_adapter
    (it : iterable jsval) (item : jsval) (f : jsval → bool) (keyFn : jsfun) :
  has_symbol_iterator it = false →
  has_length it = true →
  (∀ before after n,
      pull zip_next (S n) (zip (before ++ it :: after))
      = Throw (TypeError "iterable[Symbol.iterator] is not a function"))
  ∧ (∀ n, pull concat_next (S n) (concat [it])
          = Throw (TypeError "iterable is not iterable"))
  ∧ partition it keyFn = Throw (TypeError "iterable is not iterable")
  ∧ (∃ b, all it (Some f) = Ok b)
  ∧ (∃ b, any it (Some f) = Ok b)
  ∧ (∃ r, indexOf it item None = Ok r)
  ∧ (∃ ys, pull imap_next (S (length (index_walk it)))
             (imap it (λ x k _, (x, k))) = Ok (ys, true)).
Proof.
  intros Hit Hlen.
  assert (iterator it = Ok (Gen (index_walk it))) as Hadapt.
  { unfold iterator. by rewrite Hit, Hlen. }
  split; [|split; [|split; [|split; [|split; [|split]]]]].
  - intros before after n. rewrite pull_S. unfold zip. cbn -[zip_round].
    by rewrite symbol_iterators_fail.
  - intros n. rewrite pull_S. cbn. unfold for_of. by rewrite Hit.
  - unfold partition, for_of. by rewrite Hit.
  - unfold all. rewrite Hadapt. cbn. eauto.
  - unfold any. rewrite Hadapt. cbn. eauto.
  - unfold indexOf. rewrite Hadapt. cbn.
    destruct (isNaN item); [eauto|].
    destruct it; try done. cbn. eauto.
  - rewrite (pull_imap_start it _ _ _ Hadapt), pull_imap_loop. eauto.
Qed.

Lemma array_likes_are_rejected_without_the_adapter_witness :
  pull zip_next 1 (zip [Arr [num 1]; array_like 1 {[0%nat := num 2]}])
  = Throw (TypeError "iterable[Symbol.iterator] is not a function")
  ∧ partition (array_like 1 {[0%nat := num 2]}) (arg 0)
    = Throw (TypeError "iterable is not iterable").
Proof.
  destruct (array_likes_are_rejected_without_the_adapter
              (array_like 1 {[0%nat := num 2]}) VNull value_truthy (arg 0)
              eq_refl eq_refl) as (Hzip & _ & Hpartition & _).
  exact (conj (Hzip [Arr [num 1]] [] 0%nat) Hpartition).
Defined.

(** [forEach] raises on every call, also on an empty sequence: it
    loops over [this.map(iterable, fn)], and the exported object has no
    member [map]; the function it is given is never called. *)
Lemma forEach_raises (it : iterable jsval) (fn : jsfun) :
  forEach it fn = Throw (TypeError "this.map is not a function").
Proof. reflexivity. Qed.

(** ** More on arange and irange *)

Section MoreRangeFacts.
Implicit Types (fn : option jsfun) (start : option Z).

(** X15: for [0 <= end - start < 2^32], with [start] and [end] among
    the integers that the host counts exactly, from [-2^53] to [2^53],
    the eager variant returns an array of [end - start] elements whose
    element at position [k] is [start + k], or [fn(start + k, k)] with
    a mapping function, in the four argument combinations. *)
Theorem arange_returns_the_range start e fn :
  0 ≤ e - default 0 start < 2 ^ 32 →
  - 2 ^ 53 ≤ default 0 start →
  e ≤ 2 ^ 53 →
  ∃ xs, arange (range_call start e fn) = Ok (Some xs)
        ∧ Z.of_nat (length xs) = e - default 0 start
        ∧ ∀ k, (k < length xs)%nat →
               xs !! k = Some (range_elem fn (default 0 start + Z.of_nat k)
                                 (Z.of_nat k)).
Proof.
  intros Hrange Hs He. eexists. split; [by apply arange_values|].
  unfold range_values. rewrite length_fmap, length_seq. split; [lia|].
  intros k Hk. by rewrite list_lookup_fmap, lookup_seq_lt.
Qed.

(** X17: a length of [2^32] or more cannot be allocated: the eager
    variant raises where the lazy variant starts to yield. *)
Theorem arange_raises_on_a_range_too_long start e fn :
  2 ^ 32 ≤ e - default 0 start →
  arange (range_call start e fn) = Throw (RangeError "Invalid array length")
  ∧ pull irange_next 1 (irange (range_call start e fn))
    = Ok ([range_elem fn (default 0 start) 0], false).
Proof.
  intros Hlong. split.
  - unfold arange. rewrite process_range_call.
    cbn [to_number number_sub new_Array].
    rewrite (proj2 (Z.leb_le _ _)) by lia.
    by rewrite (proj2 (Z.ltb_ge _ _)) by lia.
  - rewrite pull_S. unfold irange. cbn [irange_next].
    rewrite process_range_call. cbn [to_number]. unfold irange_test.
    by rewrite (proj2 (Z.ltb_lt _ _)) by lia.
Qed.

(** X18: when the first argument is not a number, that is a function
    or no argument at all, [end - start] is not a number: the eager
    variant raises and the lazy variant yields nothing. *)
Theorem ranges_without_a_leading_number (args : list jsarg) :
  typeof_number (head args) = false →
  arange args = Throw (RangeError "Invalid array length")
  ∧ pull irange_next 1 (irange args) = Ok ([], true).
Proof.
  intros Hhead. unfold arange, irange. rewrite pull_S. cbn [irange_next].
  destruct args as [|[n|f] args]; [done|done|].
  destruct args as [|[n|g] args]; by try destruct args as [|[m|h] args].
Qed.

(** X19: for [0 <= end - start < 2^32], with [start] and [end] from
    [-2^53] to [2^53], mapping through [imap] the array that the eager
    variant returns without a mapping function gives the array it
    returns with one. *)
Theorem arange_with_fn_is_imap_of_arange start e (f : jsfun) :
  0 ≤ e - default 0 start < 2 ^ 32 →
  - 2 ^ 53 ≤ default 0 start →
  e ≤ 2 ^ 53 →
  ∃ xs ys,
    arange (range_call start e None) = Ok (Some xs)
    ∧ arange (range_call start e (Some f)) = Ok (Some ys)
    ∧ pull imap_next (S (length xs)) (imap (Arr xs) (λ x k _, f [x; num k]))
      = Ok (ys, true).
Proof.
  intros Hrange Hs He.
  exists (range_values None (default 0 start) (Z.to_nat (e - default 0 start))),
         (range_values (Some f) (default 0 start) (Z.to_nat (e - default 0 start))).
  split; [by apply arange_values|]. split; [by apply arange_values|].
  rewrite (pull_imap_start (Arr _) (Arr _) _ _ eq_refl). cbn [elements].
  rewrite pull_imap_loop. do 2 f_equal. apply list_eq. intros k.
  unfold range_values.
  rewrite list_lookup_imap, !list_lookup_fmap.
  destruct (seq 0 _ !! k) as [j|] eqn:Hj; [|done].
  by apply lookup_seq in Hj as [-> _].
Qed.
End MoreRangeFacts.

Lemma arange_returns_the_range_witness :
  ∃ xs, arange [ANum 2; ANum 5] = Ok (Some xs)
        ∧ Z.of_nat (length xs) = 5 - 2
        ∧ ∀ k, (k < length xs)%nat →
               xs !! k = Some (num (2 + Z.of_nat k)).
Proof. apply (arange_returns_the_range (Some 2) 5 None); cbn; lia. Defined.

(** X16: for [0 <= end - start < 2^32], with [start] and [end] from
    [-2^53] to [2^53], the eager variant returns an array, and the lazy
    variant called with the same arguments and pulled one element at a
    time yields exactly the elements of that array and then reports
    exhaustion. *)
Theorem lazy_range_yields_the_eager_array
    (start : option Z) (e : Z) (fn : option jsfun) :
  0 ≤ e - default 0 start < 2 ^ 32 →
  - 2 ^ 53 ≤ default 0 start →
  e ≤ 2 ^ 53 →
  ∃ xs, arange (range_call start e fn) = Ok (Some xs)
        ∧ pull irange_next (S (length xs)) (irange (range_call start e fn))
          = Ok (xs, true)
        ∧ ∀ n, (n ≤ length xs)%nat →
               pull irange_next n (irange (range_call start e fn))
               = Ok (take n xs, false).
Proof.
  intros Hrange Hs He.
  destruct (arange_irange_agree start e fn Hrange Hs He)
    as (xs & Heager & Hlazy & _).
  exists xs. split; [done|]. split; [done|].
  clear Heager Hrange Hs He. revert Hlazy.
  generalize (irange (range_call start e fn)). revert xs.
  assert (∀ (xs : list jsval) n (s : irange_state),
             pull irange_next (S (length xs)) s = Ok (xs, true) →
             (n ≤ length xs)%nat →
             pull irange_next n s = Ok (take n xs, false)) as Hprefix.
  { intros xs n. revert xs. induction n as [|n IH]; intros xs s Hfull Hn.
    - done.
    - destruct xs as [|x xs]; [cbn in Hn; lia|].
      rewrite pull_S in Hfull. rewrite pull_S.
      destruct (irange_next s) as [[[y| |ret] s']|err]; cbn -[pull] in *;
        try done.
      destruct (pull irange_next (S (length xs)) s') as [[ys fin]|err] eqn:Hrest;
        cbn in Hfull; [|done].
      injection Hfull as -> -> ->.
      rewrite (IH xs s' Hrest) by (cbn in Hn; lia). done. }
  intros xs s Hfull n Hn. by apply Hprefix.
Qed.

Lemma lazy_range_yields_the_eager_array_witness :
  ∃ xs, arange [ANum 1; ANum 4; AFun (arg 1)] = Ok (Some xs)
        ∧ pull irange_next (S (length xs)) (irange [ANum 1; ANum 4; AFun (arg 1)])
          = Ok (xs, true)
        ∧ ∀ n, (n ≤ length xs)%nat →
               pull irange_next n (irange [ANum 1; ANum 4; AFun (arg 1)])
               = Ok (take n xs, false).
Proof.
  apply (lazy_range_yields_the_eager_array (Some 1) 4 (Some (arg 1)));
    cbn; lia.
Defined.

Lemma arange_raises_on_a_range_too_long_witness :
  arange [ANum 0; ANum (2 ^ 32)] = Throw (RangeError "Invalid array length")
  ∧ pull irange_next 1 (irange [ANum 0; ANum (2 ^ 32)]) = Ok ([num 0], false).
Proof.
  apply (arange_raises_on_a_range_too_long (Some 0) (2 ^ 32) None). cbn. lia.
Defined.

Lemma ranges_without_a_leading_number_witness :
  arange [AFun (arg 0); ANum 5] = Throw (RangeError "Invalid array length")
  ∧ pull irange_next 1 (irange [AFun (arg 0); ANum 5]) = Ok ([], true).
Proof.
  exact (ranges_without_a_leading_number [AFun (arg 0); ANum 5] eq_refl).
Defined.

Lemma arange_with_fn_is_imap_of_arange_witness :
  ∃ xs ys,
    arange [ANum 3] = Ok (Some xs)
    ∧ arange [ANum 3; AFun (arg 1)] = Ok (Some ys)
    ∧ pull imap_next (S (length xs)) (imap (Arr xs) (λ x k _, arg 1 [x; num k]))
      = Ok (ys, true).
Proof. apply (arange_with_fn_is_imap_of_arange None 3 (arg 1)); cbn; lia. Defined.

(** ** partition *)

Section PartitionFacts.
Implicit Types (m ret : list (jsval * list jsval)) (k key x : jsval).
Implicit Types (g xs : list jsval) (keyFn : jsfun).

(** On the primitive values [SameValueZero] is equality. *)
Lemma same_value_zero_decide a b : same_value_zero a b = bool_decide (a = b).
Proof.
  destruct a as [| |x|[x|]], b as [| |y|[y|]]; cbn; try done.
  - by destruct x, y.
  - destruct (Z.eqb_spec x y) as [->|Hne].
    + by rewrite bool_decide_eq_true_2.
    + rewrite bool_decide_eq_false_2; [done|congruence].
Qed.

Lemma map_has_keys m key : map_has m key = true ↔ key ∈ m.*1.
Proof.
  unfold map_has. rewrite bool_decide_eq_true.
  induction m as [|[k w] m IH]; cbn.
  - split; [by intros [? ?]|by intros ?%elem_of_nil].
  - rewrite same_value_zero_decide, elem_of_cons, <- IH.
    case_bool_decide; subst; split; eauto.
    intros [?|?]; [congruence|done].
Qed.

Lemma map_get_push m key x k :
  map_get (map_push m key x) k
  = if decide (k = key) then (λ g, g ++ [x]) <$> map_get m key
    else map_get m k.
Proof.
  induction m as [|[k' w] m IH]; cbn; [by case_decide|].
  rewrite !same_value_zero_decide.
  case_bool_decide as Hk'; subst; cbn; rewrite !same_value_zero_decide.
  - case_decide; subst.
    + by rewrite !bool_decide_eq_true_2.
    + by rewrite !bool_decide_eq_false_2 by congruence.
  - rewrite IH. case_decide; subst; [|done].
    by rewrite bool_decide_eq_false_2.
Qed.

Lemma map_get_set m key g k :
  map_get (map_set m key g) k
  = if decide (k = key) then Some g else map_get m k.
Proof.
  induction m as [|[k' w] m IH]; cbn; rewrite ?same_value_zero_decide.
  - case_decide; subst.
    + by rewrite bool_decide_eq_true_2.
    + rewrite bool_decide_eq_false_2; [done|congruence].
  - case_bool_decide as Hk'; subst; cbn; rewrite !same_value_zero_decide.
    + case_decide; subst.
      * by rewrite bool_decide_eq_true_2.
      * by rewrite !bool_decide_eq_false_2 by congruence.
    + rewrite IH. case_decide; subst; [|done].
      by rewrite bool_decide_eq_false_2.
Qed.

Lemma map_push_keys m key x : (map_push m key x).*1 = m.*1.
Proof.
  induction m as [|[k w] m IH]; cbn; [done|].
  destruct (same_value_zero k key); cbn; [done|by rewrite IH].
Qed.

Lemma map_set_fresh m key g : key ∉ m.*1 → map_set m key g = m ++ [(key, g)].
Proof.
  induction m as [|[k w] m IH]; cbn; [done|].
  rewrite not_elem_of_cons, same_value_zero_decide. intros [Hne Hnot].
  rewrite bool_decide_eq_false_2 by congruence. by rewrite IH.
Qed.

Lemma map_get_entry m k g : NoDup m.*1 → (k, g) ∈ m ↔ map_get m k = Some g.
Proof.
  induction m as [|[k' w] m IH]; cbn.
  - intros _. split; [by intros ?%elem_of_nil|done].
  - rewrite NoDup_cons, same_value_zero_decide, elem_of_cons.
    intros [Hfresh Hnodup]. case_bool_decide; subst.
    + split.
      * intros [[= <-]|Hin]; [done|].
        destruct Hfresh. apply list_elem_of_fmap. by exists (k, g).
      * intros [= <-]. by left.
    + rewrite <- (IH Hnodup). split; [|by right].
      intros [[= <- <-]|Hin]; done.
Qed.

(** What the loop adds to the groups already made. *)
Lemma partition_loop_get keyFn xs ret k :
  map_get (partition_loop keyFn ret xs) k
  = match map_get ret k with
    | Some g => Some (g ++ filter (λ x, keyFn [x] = k) xs)
    | None =>
        match filter (λ x, keyFn [x] = k) xs with
        | [] => None
        | g => Some g
        end
    end.
Proof.
  revert ret. induction xs as [|x xs IH]; intros ret.
  - cbn. destruct (map_get ret k); [by rewrite app_nil_r|done].
  - cbn [partition_loop]. rewrite filter_cons.
    destruct (map_has ret (keyFn [x])) eqn:Hhas.
    + rewrite IH, map_get_push.
      apply (proj1 (bool_decide_eq_true _)) in Hhas as [g0 Hg0].
      case_decide as Hk; subst.
      * rewrite Hg0. cbn. rewrite decide_True by done.
        by rewrite <- app_assoc.
      * rewrite decide_False by congruence. done.
    + rewrite IH, map_get_set.
      apply (proj1 (bool_decide_eq_false _)) in Hhas.
      case_decide as Hk; subst.
      * rewrite decide_True by done.
        destruct (map_get ret (keyFn [x])) eqn:Hret; [by destruct Hhas|done].
      * rewrite decide_False by congruence. done.
Qed.

Lemma partition_loop_keys keyFn xs ret :
  NoDup ret.*1 →
  ∃ new,
    (partition_loop keyFn ret xs).*1 = ret.*1 ++ new
    ∧ NoDup (ret.*1 ++ new)
    ∧ (∀ k, k ∈ new ↔ (k ∉ ret.*1) ∧ k ∈ (λ x, keyFn [x]) <$> xs)
    ∧ (∀ i j ki kj,
          new !! i = Some ki → new !! j = Some kj → (i < j)%nat →
          ∃ p, ((λ x, keyFn [x]) <$> xs) !! p = Some ki
               ∧ ∀ q, (q ≤ p)%nat →
                      (((λ x, keyFn [x]) <$> xs) !! q) ≠ Some kj).
Proof.
  revert ret. induction xs as [|x xs IH]; intros ret Hnodup.
  - exists []. cbn. rewrite app_nil_r.
    split; [done|]. split; [done|]. split; [|done].
    intros k. split; [by intros ?%elem_of_nil|by intros [_ ?%elem_of_nil]].
  - cbn [partition_loop fmap list_fmap].
    destruct (map_has ret (keyFn [x])) eqn:Hhas.
    + apply map_has_keys in Hhas.
      destruct (IH (map_push ret (keyFn [x]) x)) as (new & Hkeys & Hnd & Hin & Hord).
      { by rewrite map_push_keys. }
      rewrite map_push_keys in Hkeys, Hnd, Hin.
      exists new. split; [done|]. split; [done|]. split.
      * intros k. split.
        -- intros Hk. apply Hin in Hk as [Hk1 Hk2]. split; [done|by right].
        -- intros [Hfresh Hk]. apply Hin. split; [done|].
           apply elem_of_cons in Hk as [->|Hk]; done.
      * intros i j ki kj Hi Hj Hij.
        destruct (Hord i j ki kj Hi Hj Hij) as (p & Hp & Hbefore).
        exists (S p). split; [done|]. intros [|q] Hq; cbn.
        -- intros [= Heq]. apply list_elem_of_lookup_2, Hin in Hj as [Hfresh _].
           congruence.
        -- apply Hbefore. lia.
    + assert (keyFn [x] ∉ ret.*1) as Hfresh.
      { intros Hin. apply map_has_keys in Hin. congruence. }
      destruct (IH (map_set ret (keyFn [x]) [x])) as (new & Hkeys & Hnd & Hin & Hord).
      { rewrite map_set_fresh, fmap_app by done. cbn.
        apply NoDup_app. repeat split; [done| |apply NoDup_singleton].
        intros k Hk ->%list_elem_of_singleton. done. }
      rewrite map_set_fresh, fmap_app in Hkeys, Hnd, Hin by done.
      cbn in Hkeys, Hnd, Hin. rewrite <- app_assoc in Hkeys, Hnd. cbn in Hkeys, Hnd.
      rewrite (map_set_fresh ret _ [x] Hfresh).
      exists (keyFn [x] :: new). split; [done|]. split; [done|].
      assert (∀ k, k ∈ new → k ≠ keyFn [x]) as Hne.
      { intros k Hk ->. apply Hin in Hk as [Hk _]. apply Hk.
        apply elem_of_app. right. by left. }
      split.
      * intros k. rewrite !elem_of_cons. split.
        -- intros [->|Hk]; [split; [done|by left]|].
           apply Hin in Hk as [Hk1 Hk2]. split; [|by right].
           intros Hk3. apply Hk1, elem_of_app. by left.
        -- intros [Hk1 [->|Hk2]]; [by left|].
           destruct (decide (k = keyFn [x])) as [->|Hk3]; [by left|right].
           apply Hin. split; [|done].
           intros [?|?%list_elem_of_singleton]%elem_of_app; done.
      * intros [|i] [|j] ki kj Hi Hj Hij; try lia; cbn in Hi, Hj.
        -- injection Hi as <-. exists 0%nat. split; [done|].
           intros [|q] Hq; [|lia]. cbn. intros [= Heq].
           apply list_elem_of_lookup_2, Hne in Hj. congruence.
        -- destruct (Hord i j ki kj Hi Hj ltac:(lia)) as (p & Hp & Hbefore).
           exists (S p). split; [done|]. intros [|q] Hq; cbn.
           ++ intros [= Heq]. apply list_elem_of_lookup_2, Hne in Hj. congruence.
           ++ apply Hbefore. lia.
Qed.

Lemma map_push_members m key x :
  key ∈ m.*1 → mjoin (map_push m key x).*2 ≡ₚ mjoin m.*2 ++ [x].
Proof.
  induction m as [|[k w] m IH]; cbn; [by intros ?%elem_of_nil|].
  rewrite same_value_zero_decide, elem_of_cons.
  case_bool_decide as Hk; subst; cbn.
  - intros _. rewrite <- !app_assoc. f_equiv. apply Permutation_app_comm.
  - intros [?|Hin]; [congruence|]. by rewrite (IH Hin), app_assoc.
Qed.

Lemma partition_loop_members keyFn xs ret :
  mjoin (partition_loop keyFn ret xs).*2 ≡ₚ mjoin ret.*2 ++ xs.
Proof.
  revert ret. induction xs as [|x xs IH]; intros ret; cbn [partition_loop].
  - by rewrite app_nil_r.
  - destruct (map_has ret (keyFn [x])) eqn:Hhas; rewrite IH.
    + apply map_has_keys in Hhas. rewrite (map_push_members _ _ _ Hhas).
      by rewrite <- app_assoc.
    + assert (keyFn [x] ∉ ret.*1) as Hfresh.
      { intros Hin. apply map_has_keys in Hin. congruence. }
      rewrite map_set_fresh, fmap_app, join_app by done. cbn.
      by rewrite <- app_assoc.
Qed.
End PartitionFacts.

(** X20: the entries of the map that [partition] returns are the
    non-empty groups: a key [k] is mapped to an array [g] exactly when
    [g] is not empty and lists, in source order, the elements whose key
    is [k]; [get] returns that array, and nothing for a key of no
    element. *)
Theorem partition_groups_by_key (it : iterable jsval) (keyFn : jsfun) :
  has_symbol_iterator it = true →
  ∃ m, partition it keyFn = Ok m
       ∧ (∀ k g, (k, g) ∈ m
                 ↔ g = filter (λ x, keyFn [x] = k) (elements it) ∧ g ≠ [])
       ∧ (∀ k, map_get m k
               = match filter (λ x, keyFn [x] = k) (elements it) with
                 | [] => None
                 | g => Some g
                 end).
Proof.
  intros Hit. exists (partition_loop keyFn [] (elements it)).
  split; [unfold partition, for_of; by rewrite Hit|].
  assert (∀ k, map_get (partition_loop keyFn [] (elements it)) k
               = match filter (λ x, keyFn [x] = k) (elements it) with
                 | [] => None
                 | g => Some g
                 end) as Hget.
  { intros k. by rewrite partition_loop_get. }
  split; [|done]. intros k g.
  destruct (partition_loop_keys keyFn (elements it) []) as (new & Hkeys & Hnd & _);
    [apply NoDup_nil_2|].
  rewrite map_get_entry, Hget by (by rewrite Hkeys).
  destruct (filter _ (elements it)) as [|y ys]; [|split].
  - split; [done|]. by intros [-> ?].
  - by intros [= <-].
  - by intros [-> _].
Qed.

Lemma partition_groups_by_key_witness :
  partition (Arr [num 1; num 2; num 3; num 4]) parity
  = Ok [(num 1, [num 1; num 3]); (num 0, [num 2; num 4])]
  ∧ ∃ m, partition (Arr [num 1; num 2; num 3; num 4]) parity = Ok m
         ∧ map_get m (num 7) = None.
Proof.
  split; [reflexivity|].
  destruct (partition_groups_by_key (Arr [num 1; num 2; num 3; num 4]) parity
              eq_refl) as (m & Hm & _ & Hget).
  exists m. split; [done|]. rewrite Hget. reflexivity.
Defined.

(** X21: the keys of the map that [partition] returns are pairwise
    distinct, they are the keys of the elements, and they stand in the
    order in which they first occur: of two keys, the one entered first
    is the key of an element that comes before every element of the
    other. *)
Theorem partition_orders_keys_by_first_occurrence
    (it : iterable jsval) (keyFn : jsfun) :
  has_symbol_iterator it = true →
  ∃ m, partition it keyFn = Ok m
       ∧ NoDup m.*1
       ∧ (∀ k, k ∈ m.*1 ↔ ∃ x, x ∈ elements it ∧ keyFn [x] = k)
       ∧ (∀ i j ki kj,
             m.*1 !! i = Some ki → m.*1 !! j = Some kj → (i < j)%nat →
             ∃ p x, elements it !! p = Some x ∧ keyFn [x] = ki
                    ∧ ∀ q y, (q ≤ p)%nat → elements it !! q = Some y →
                             keyFn [y] ≠ kj).
Proof.
  intros Hit. exists (partition_loop keyFn [] (elements it)).
  split; [unfold partition, for_of; by rewrite Hit|].
  destruct (partition_loop_keys keyFn (elements it) [])
    as (new & Hkeys & Hnd & Hin & Hord); [apply NoDup_nil_2|].
  cbn in Hkeys, Hnd, Hin. rewrite Hkeys. split; [done|split].
  - intros k. rewrite Hin, list_elem_of_fmap. split.
    + intros [_ (x & -> & Hx)]. eauto.
    + intros (x & Hx & <-). split; [by intros ?%elem_of_nil|eauto].
  - intros i j ki kj Hi Hj Hij.
    destruct (Hord i j ki kj Hi Hj Hij) as (p & Hp & Hbefore).
    rewrite list_lookup_fmap in Hp.
    destruct (elements it !! p) as [x|] eqn:Hx; [|done].
    injection Hp as <-. exists p, x. repeat split; [done|].
    intros q y Hq Hy Heq. apply (Hbefore q Hq).
    by rewrite list_lookup_fmap, Hy, <- Heq.
Qed.

Lemma partition_orders_keys_by_first_occurrence_witness :
  ∃ m, partition (Gen [num 1; num 2; num 3; num 4]) parity = Ok m
       ∧ m.*1 = [num 1; num 0] ∧ NoDup m.*1.
Proof.
  destruct (partition_orders_keys_by_first_occurrence
              (Gen [num 1; num 2; num 3; num 4]) parity eq_refl)
    as (m & Hm & Hnd & _).
  exists m. split; [done|]. split; [|done]. by injection Hm as <-.
Defined.

(** X22: [partition] neither loses nor repeats an element: the groups
    of the map it returns, put end to end, are a rearrangement of the
    source sequence. *)
Theorem partition_keeps_every_element (it : iterable jsval) (keyFn : jsfun) :
  has_symbol_iterator it = true →
  ∃ m, partition it keyFn = Ok m ∧ mjoin m.*2 ≡ₚ elements it.
Proof.
  intros Hit. exists (partition_loop keyFn [] (elements it)).
  split; [unfold partition, for_of; by rewrite Hit|].
  by rewrite partition_loop_members.
Qed.

Lemma partition_keeps_every_element_witness :
  ∃ m, partition (Arr [num 1; num 2; num 3; num 4]) parity = Ok m
       ∧ mjoin m.*2 ≡ₚ [num 1; num 2; num 3; num 4].
Proof.
  exact (partition_keeps_every_element (Arr [num 1; num 2; num 3; num 4])
           parity eq_refl).
Defined.

(** ** setsAreEqual *)

Section SetFacts.
Implicit Types (store : gmap nat (list jsval)) (l : list jsval).

Lemma set_has_elem_of l item : set_has l item = true ↔ item ∈ l.
Proof.
  unfold set_has. induction l as [|x l IH]; cbn.
  - split; [done|by intros ?%elem_of_nil].
  - rewrite same_value_zero_decide, elem_of_cons, <- IH.
    case_bool_decide; subst; cbn; split; eauto.
    intros [?|?]; [congruence|done].
Qed.

Lemma has_all_subseteq l2 l1 : has_all l2 l1 = true ↔ ∀ x, x ∈ l1 → x ∈ l2.
Proof.
  induction l1 as [|x l1 IH]; cbn.
  - split; [by intros _ ? ?%elem_of_nil|done].
  - destruct (set_has l2 x) eqn:Hx; cbn.
    + apply set_has_elem_of in Hx. rewrite IH. split.
      * intros Hsub y [->|Hy]%elem_of_cons; eauto.
      * intros Hsub y Hy. apply Hsub. by right.
    + split; [done|]. intros Hsub.
      assert (set_has l2 x = true) as Hx'; [|congruence].
      apply set_has_elem_of, Hsub. by left.
Qed.

Lemma setsAreEqual_permutation store set1 set2 l1 l2 :
  store !! set1 = Some l1 →
  store !! set2 = Some l2 →
  NoDup l1 →
  ∃ b, setsAreEqual store set1 set2 = Some b ∧ (b = true ↔ l1 ≡ₚ l2).
Proof.
  intros H1 H2 Hnd1. unfold setsAreEqual. rewrite H1, H2. cbn.
  case_bool_decide as Href.
  - subst. assert (l1 = l2) as -> by congruence. by exists true.
  - case_bool_decide as Hlen; eexists; (split; [done|]).
    + rewrite has_all_subseteq. split.
      * intros Hsub. apply submseteq_length_Permutation; [|lia].
        by apply NoDup_submseteq.
      * intros Heq x. by rewrite Heq.
    + split; [done|]. intros Heq. by rewrite Heq in Hlen.
Qed.

(** X23: on two [Set] objects of the store, whose members are pairwise
    distinct, [setsAreEqual] answers [true] exactly when the two sets
    have the same members, in whatever order they were inserted. *)
Theorem setsAreEqual_decides_equal_membership store set1 set2 l1 l2 :
  store !! set1 = Some l1 →
  store !! set2 = Some l2 →
  NoDup l1 →
  NoDup l2 →
  ∃ b, setsAreEqual store set1 set2 = Some b
       ∧ (b = true ↔ l1 ≡ₚ l2)
       ∧ (b = true ↔ ∀ x, x ∈ l1 ↔ x ∈ l2).
Proof.
  intros H1 H2 Hnd1 Hnd2.
  destruct (setsAreEqual_permutation store set1 set2 l1 l2)
    as (b & Hb & Hperm); [done..|].
  exists b. split; [done|]. split; [done|].
  rewrite Hperm. split.
  - intros Heq x. by rewrite Heq.
  - intros Hx. by apply NoDup_Permutation.
Qed.

(** X24: on such sets [setsAreEqual] is symmetric, although it walks
    its first argument only, and it answers [true] when given the same
    set twice. *)
Theorem setsAreEqual_is_symmetric store set1 set2 l1 l2 :
  store !! set1 = Some l1 →
  store !! set2 = Some l2 →
  NoDup l1 →
  NoDup l2 →
  setsAreEqual store set1 set2 = setsAreEqual store set2 set1
  ∧ setsAreEqual store set1 set1 = Some true.
Proof.
  intros H1 H2 Hnd1 Hnd2. split.
  - destruct (setsAreEqual_permutation store set1 set2 l1 l2)
      as (b & -> & Hb); [done..|].
    destruct (setsAreEqual_permutation store set2 set1 l2 l1)
      as (b' & -> & Hb'); [done..|].
    f_equal. destruct b, b'; try done.
    + symmetry. apply Hb'. symmetry. by apply Hb.
    + apply Hb. symmetry. by apply Hb'.
  - unfold setsAreEqual. rewrite H1. cbn. by rewrite bool_decide_eq_true_2.
Qed.
End SetFacts.

Lemma setsAreEqual_decides_equal_membership_witness :
  setsAreEqual {[1%nat := [num 1; VNum NaN; num 3]; 2%nat := [num 3; num 1; VNum NaN]]}
    1 2 = Some true
  ∧ [num 1; VNum NaN; num 3] ≡ₚ [num 3; num 1; VNum NaN].
Proof.
  destruct (setsAreEqual_decides_equal_membership
              {[1%nat := [num 1; VNum NaN; num 3]; 2%nat := [num 3; num 1; VNum NaN]]}
              1 2 [num 1; VNum NaN; num 3] [num 3; num 1; VNum NaN])
    as (b & Hb & Hperm & _).
  - vm_compute. reflexivity.
  - vm_compute. reflexivity.
  - compute_done.
  - compute_done.
  - assert (b = true) as -> by (vm_compute in Hb; congruence).
    split; [done|]. by apply Hperm.
Defined.

Lemma setsAreEqual_is_symmetric_witness :
  setsAreEqual {[1%nat := [num 1; num 2]; 2%nat := [num 2; num 4]]} 1 2
  = setsAreEqual {[1%nat := [num 1; num 2]; 2%nat := [num 2; num 4]]} 2 1.
Proof.
  apply (setsAreEqual_is_symmetric
           {[1%nat := [num 1; num 2]; 2%nat := [num 2; num 4]]} 1 2
           [num 1; num 2] [num 2; num 4]).
  - vm_compute. reflexivity.
  - vm_compute. reflexivity.
  - compute_done.
  - compute_done.
Defined.

(** * Further properties of asyncExec *)

Module AsyncMore.
Import Async.
Import AsyncFacts.
#[local] Close Scope Z_scope.

Section Chains.
Context (ps : list value) (k : list value → value).
Implicit Types (vs got rest : list value) (v e : value).

(** From a resume in the middle of the chain, each promise left takes
    two moves: one to suspend on it and one to be resumed by it. *)
Lemma chain_runs vs got v :
  steps (await_each ps k) (1 + 2 * length vs)
    (Running (ChainAt got ((Promise ∘ Fulfilled) <$> vs)) (ResumeNext v))
  = Done (k (got ++ v :: vs)).
Proof.
  revert got v. induction vs as [|v1 vs IH]; intros got v; [done|].
  replace (1 + 2 * length (v1 :: vs)) with (S (S (1 + 2 * length vs)))
    by (cbn; lia).
  cbn [steps].
  assert (step (await_each ps k)
            (step (await_each ps k)
               (Running (ChainAt got ((Promise ∘ Fulfilled) <$> v1 :: vs))
                  (ResumeNext v)))
          = Running (ChainAt (got ++ [v]) ((Promise ∘ Fulfilled) <$> vs))
              (ResumeNext v1)) as -> by done.
  by rewrite IH, <- app_assoc.
Qed.

Lemma chain_fails vs got v e rest :
  steps (await_each ps k) (3 + 2 * length vs)
    (Running (ChainAt got (((Promise ∘ Fulfilled) <$> vs)
                             ++ Promise (Rejected e) :: rest))
       (ResumeNext v))
  = Failed e.
Proof.
  revert got v. induction vs as [|v1 vs IH]; intros got v; [done|].
  replace (3 + 2 * length (v1 :: vs)) with (S (S (3 + 2 * length vs)))
    by (cbn; lia).
  cbn [steps].
  assert (step (await_each ps k)
            (step (await_each ps k)
               (Running (ChainAt got (((Promise ∘ Fulfilled) <$> v1 :: vs)
                                        ++ Promise (Rejected e) :: rest))
                  (ResumeNext v)))
          = Running (ChainAt (got ++ [v])
                       (((Promise ∘ Fulfilled) <$> vs)
                          ++ Promise (Rejected e) :: rest))
              (ResumeNext v1)) as -> by done.
  by rewrite IH.
Qed.
End Chains.

(** X25: a routine that awaits promises one after the other is resumed
    with their values in that order: when all are fulfilled, the outer
    promise is settled with what the routine returns from the values in
    order; when one is rejected and the routine does not catch it, the
    outer promise is settled with that failure, whatever the promises
    after it, which are never awaited. *)
Theorem awaits_run_in_sequence (k : list value → value) :
  (∀ vs m, 2 + 2 * length vs ≤ m →
      asyncExec (await_each ((Promise ∘ Fulfilled) <$> vs) k) m = Done (k vs))
  ∧ (∀ vs e rest m, 4 + 2 * length vs ≤ m →
      asyncExec (await_each (((Promise ∘ Fulfilled) <$> vs)
                               ++ Promise (Rejected e) :: rest) k) m
      = Failed e).
Proof.
  split.
  - intros vs m Hm.
    replace m with (2 + 2 * length vs + (m - (2 + 2 * length vs))) by lia.
    rewrite asyncExec_add.
    assert (asyncExec (await_each ((Promise ∘ Fulfilled) <$> vs) k)
              (2 + 2 * length vs) = Done (k vs)) as ->; [|apply steps_Done].
    destruct vs as [|v1 vs]; [done|].
    replace (2 + 2 * length (v1 :: vs)) with (3 + (1 + 2 * length vs))
      by (cbn; lia).
    rewrite asyncExec_add. apply (chain_runs _ k vs [] v1).
  - intros vs e rest m Hm.
    replace m with (4 + 2 * length vs + (m - (4 + 2 * length vs))) by lia.
    rewrite asyncExec_add.
    assert (asyncExec (await_each (((Promise ∘ Fulfilled) <$> vs)
                                     ++ Promise (Rejected e) :: rest) k)
              (4 + 2 * length vs) = Failed e) as ->; [|apply steps_Failed].
    destruct vs as [|v1 vs]; [done|].
    replace (4 + 2 * length (v1 :: vs)) with (3 + (3 + 2 * length vs))
      by (cbn; lia).
    rewrite asyncExec_add. apply (chain_fails _ k vs [] v1).
Qed.

Lemma awaits_run_in_sequence_witness :
  asyncExec (await_each [Promise (Fulfilled (Num (Int 1)));
                         Promise (Fulfilled (Str "two"))]
               (λ vs, Obj [("values", Num (Int (Z.of_nat (length vs))))])) 6
  = Done (Obj [("values", Num (Int 2))])
  ∧ asyncExec (await_each [Promise (Fulfilled (Num (Int 1)));
                           Promise (Rejected failure_E);
                           Promise Pending]
                 (λ vs, Null)) 6
    = Failed failure_E.
Proof.
  destruct (awaits_run_in_sequence
              (λ vs, Obj [("values", Num (Int (Z.of_nat (length vs))))]))
    as [Hok _].
  destruct (awaits_run_in_sequence (λ vs, Null)) as [_ Hfail].
  split.
  - apply (Hok [Num (Int 1); Str "two"] 6). cbn. lia.
  - apply (Hfail [Num (Int 1)] failure_E [Promise Pending] 6). cbn. lia.
Defined.

(** X26: an object handed over at a suspension point is inspected for
    the property [then]: without it the routine is resumed with the
    object at once, the run never being suspended; with [then] as a
    data property the call of [then] raises and the run fails. *)
Theorem objects_at_a_suspension_point
    (props : list (string * value)) (k : value → value) :
  ("then" ∉ props.*1 →
     (∀ m, 3 ≤ m → asyncExec (await_then (Obj props) k) m = Done (k (Obj props)))
     ∧ (∀ n s p, asyncExec (await_then (Obj props) k) n ≠ Suspended s p))
  ∧ ("then" ∈ props.*1 →
     ∀ m, 2 ≤ m →
       asyncExec (await_then (Obj props) k) m
       = Failed (Error "TypeError" "iteration.value.then is not a function")).
Proof.
  split.
  - intros Hno.
    assert (asyncExec (await_then (Obj props) k) 2
            = Running AtYield (ResumeNext (Obj props))) as H2.
    { cbn. unfold resumeGenerator. cbn.
      by rewrite bool_decide_eq_false_2. }
    assert (∀ m, asyncExec (await_then (Obj props) k) (3 + m)
                 = Done (k (Obj props))) as H3.
    { intros m. rewrite asyncExec_add.
      change 3 with (2 + 1). rewrite asyncExec_add, H2. apply steps_Done. }
    split.
    + intros m Hm. replace m with (3 + (m - 3)) by lia. apply H3.
    + intros [|[|[|n]]] s p; [done|done|by rewrite H2|].
      specialize (H3 n). change (3 + n) with (S (S (S n))) in H3.
      by rewrite H3.
  - intros Hthen m Hm. replace m with (2 + (m - 2)) by lia.
    rewrite asyncExec_add.
    assert (asyncExec (await_then (Obj props) k) 2
            = Failed (Error "TypeError" "iteration.value.then is not a function"))
      as ->; [|apply steps_Failed].
    cbn. unfold resumeGenerator. cbn. by rewrite bool_decide_eq_true_2.
Qed.

Lemma objects_at_a_suspension_point_witness :
  asyncExec (await_then (Obj [("status", Num (Int 200))]) (λ v, v)) 3
  = Done (Obj [("status", Num (Int 200))])
  ∧ asyncExec (await_then (Obj [("then", Num (Int 5))]) (λ v, v)) 2
    = Failed (Error "TypeError" "iteration.value.then is not a function").
Proof.
  split.
  - apply (objects_at_a_suspension_point [("status", Num (Int 200))] (λ v, v));
      [compute_done|lia].
  - apply (objects_at_a_suspension_point [("then", Num (Int 5))] (λ v, v));
      [compute_done|lia].
Defined.

(** X27: the run has no timeout: while the promise it awaits is not
    settled it stays suspended at the same point, and the outer promise
    is neither resolved nor rejected. *)
Theorem unsettled_promise_keeps_the_run_suspended
    (R : routine) (n : nat) (s : point R) :
  asyncExec R n = Suspended s Pending →
  ∀ m, asyncExec R (n + m) = Suspended s Pending
       ∧ (∀ v, asyncExec R (n + m) ≠ Done v)
       ∧ (∀ e, asyncExec R (n + m) ≠ Failed e).
Proof.
  intros Hrun m. rewrite (suspended_waits R n s m Hrun). by repeat split.
Qed.

Lemma unsettled_promise_keeps_the_run_suspended_witness :
  asyncExec (await_then (Promise Pending) double) (2 + 40)
  = Suspended AtYield Pending.
Proof.
  apply (unsettled_promise_keeps_the_run_suspended
           (await_then (Promise Pending) double) 2 AtYield eq_refl 40).
Defined.

End AsyncMore.
